(** * game-magic: the in-memory store and the cached catalogue routes

    A shallow embedding of [storage.ts] (class [MemStorage]) and of the three
    cached handlers of [routes.ts], with the properties the specification
    states about them.

    Modelling conventions.
    - A JavaScript string is the list of its UTF-16 code units ([jsstring]).
    - JavaScript numbers that carry identifiers, game ids and Unix seconds are
      integers; they are modelled in [Z].  The three counters start at 1 and
      grow by one per call, so they stay far below 2^53, where a double stops
      representing every integer.
    - [Date.now()], the value computed by [bcrypt.hash] and the reply of the
      upstream catalogue are inputs of the operation that consumes them.
    - Every [async] method runs to completion without an inner suspension
      that touches the store, so a method is a function from the store to a
      result and a new store. *)

From stdpp Require Import gmap list strings.
From Stdlib Require Import ZArith Ascii DecimalString Sorted.

Set Warnings "-register-all".

Local Open Scope Z_scope.

(** ** JavaScript strings *)

Abbreviation jsstring := (list N).

(** The code units of an ASCII literal. *)
Definition js (s : string) : jsstring :=
  (λ a, N_of_ascii a) <$> String.list_ascii_of_string s.

(** [x || null] on an optional string: the empty string is falsy. *)
Definition or_null (x : option jsstring) : option jsstring :=
  match x with
  | Some (c :: s) => Some (c :: s)
  | Some [] => None
  | None => None
  end.

(** ** The shared schema *)

Module GameCache.
Record t (payload : Type) := mk {
  id : Z;
  key : jsstring;
  data : payload;
  timestamp : Z
}.
Arguments mk {payload}.
Arguments id {payload}.
Arguments key {payload}.
Arguments data {payload}.
Arguments timestamp {payload}.
End GameCache.

Module InsertUser.
Record t := mk {
  email : jsstring;
  username : jsstring;
  password : jsstring;
  profilePicture : option jsstring
}.
End InsertUser.

Module User.
Record t := mk {
  id : Z;
  email : jsstring;
  username : jsstring;
  password : jsstring;
  createdAt : Z;
  profilePicture : option jsstring;
  favoriteGames : list Z
}.

Definition set_favoriteGames (l : list Z) (u : t) : t :=
  mk (id u) (email u) (username u) (password u) (createdAt u)
     (profilePicture u) l.
End User.

Module InsertFavorite.
Record t := mk {
  userId : Z;
  gameId : Z;
  gameName : jsstring;
  gameImage : option jsstring
}.
End InsertFavorite.

Module Favorite.
Record t := mk {
  id : Z;
  userId : Z;
  gameId : Z;
  gameName : jsstring;
  gameImage : option jsstring;
  addedAt : Z
}.
End Favorite.

(** ** A JavaScript [Map] whose iteration order is observed

    [users] is read through [Array.from(this.users.values()).find(...)], which
    visits the values in insertion order; the map is therefore kept as the
    sequence of its entries.  [Map.prototype.set] on a key already present
    replaces the value where it stands, on a new key it appends. *)

Section OrderedMap.
Context {V : Type}.

Fixpoint map_get (k : Z) (m : list (Z * V)) : option V :=
  match m with
  | [] => None
  | (k', v) :: m' => if decide (k = k') then Some v else map_get k m'
  end.

Fixpoint map_set (k : Z) (v : V) (m : list (Z * V)) : list (Z * V) :=
  match m with
  | [] => [(k, v)]
  | (k', v') :: m' =>
      if decide (k = k') then (k, v) :: m' else (k', v') :: map_set k v m'
  end.

Definition map_values (m : list (Z * V)) : list V := m.*2.
End OrderedMap.

(** ** [MemStorage] *)

Section Storage.
Context {payload : Type}.

(** [gameCache] and [favorites] are only read by key (the sweep visits every
    entry, in an order that does not matter), so they are finite maps;
    [users] keeps its insertion order. *)
Record MemStorage := mkStorage {
  gameCache : gmap jsstring (GameCache.t payload);
  users : list (Z * User.t);
  favorites : gmap Z (list Favorite.t);
  currentId : Z;
  userId : Z;
  favoriteId : Z
}.

Definition set_gameCache (f : gmap jsstring (GameCache.t payload) →
                              gmap jsstring (GameCache.t payload))
    (s : MemStorage) : MemStorage :=
  mkStorage (f (gameCache s)) (users s) (favorites s)
            (currentId s) (userId s) (favoriteId s).

Definition set_users (f : list (Z * User.t) → list (Z * User.t))
    (s : MemStorage) : MemStorage :=
  mkStorage (gameCache s) (f (users s)) (favorites s)
            (currentId s) (userId s) (favoriteId s).

Definition set_favorites (f : gmap Z (list Favorite.t) →
                              gmap Z (list Favorite.t))
    (s : MemStorage) : MemStorage :=
  mkStorage (gameCache s) (users s) (f (favorites s))
            (currentId s) (userId s) (favoriteId s).

(** The constructor.  The hourly [setInterval] it installs is one more
    caller of [clearExpiredCache]; in a history it shows as a
    [ClearExpiredCache] call. *)
Definition new_MemStorage : MemStorage :=
  mkStorage ∅ [] ∅ 1 1 1.

(** *** Game cache methods *)

(** [now] is [Math.floor(Date.now() / 1000)]. *)
Definition getGameCache (key : jsstring) (now : Z) (s : MemStorage)
    : option (GameCache.t payload) * MemStorage :=
  match gameCache s !! key with
  | None => (None, s)
  | Some cachedItem =>
      if bool_decide (GameCache.timestamp cachedItem < now)
      then (None, set_gameCache (delete key) s)
      else (Some cachedItem, s)
  end.

Definition cacheGameData (key : jsstring) (data : payload) (timestamp : Z)
    (s : MemStorage) : GameCache.t payload * MemStorage :=
  let id := currentId s in
  let cacheItem := GameCache.mk id key data timestamp in
  (cacheItem,
   mkStorage (<[key := cacheItem]> (gameCache s)) (users s) (favorites s)
             (id + 1) (userId s) (favoriteId s)).

(** One turn of the [forEach] callback. *)
Definition sweep_entry (now : Z)
    (cache : gmap jsstring (GameCache.t payload))
    (entry : jsstring * GameCache.t payload)
    : gmap jsstring (GameCache.t payload) :=
  if bool_decide (GameCache.timestamp entry.2 < now)
  then delete entry.1 cache
  else cache.

(** [Array.from(this.gameCache.entries())] is a snapshot; the callback
    deletes from the live map. *)
Definition clearExpiredCache (now : Z) (s : MemStorage) : MemStorage :=
  set_gameCache
    (λ cache, foldl (sweep_entry now) cache (map_to_list cache)) s.

(** *** User methods *)

Definition createUser (userData : InsertUser.t) (hashedPassword : jsstring)
    (date : Z) (s : MemStorage) : User.t * MemStorage :=
  let newUser :=
    User.mk (userId s) (InsertUser.email userData)
            (InsertUser.username userData) hashedPassword date
            (or_null (InsertUser.profilePicture userData)) [] in
  (newUser,
   mkStorage (gameCache s) (map_set (User.id newUser) newUser (users s))
             (favorites s) (currentId s) (userId s + 1) (favoriteId s)).

Definition getUserByEmail (email : jsstring) (s : MemStorage)
    : option User.t :=
  List.find (λ user, bool_decide (User.email user = email))
            (map_values (users s)).

Definition getUserByUsername (username : jsstring) (s : MemStorage)
    : option User.t :=
  List.find (λ user, bool_decide (User.username user = username))
            (map_values (users s)).

Definition getUserById (id : Z) (s : MemStorage) : option User.t :=
  map_get id (users s).

(** *** Favorites methods *)

(** [user.favoriteGames] is written through the reference held by the map,
    so the entry under [key] changes before [this.users.set(user.id, user)]
    runs. *)
Definition write_user (key : Z) (user : User.t)
    (m : list (Z * User.t)) : list (Z * User.t) :=
  map_set (User.id user) user (map_set key user m).

Definition addFavorite (favoriteData : InsertFavorite.t) (date : Z)
    (s : MemStorage) : Favorite.t * MemStorage :=
  let newFavorite :=
    Favorite.mk (favoriteId s) (InsertFavorite.userId favoriteData)
                (InsertFavorite.gameId favoriteData)
                (InsertFavorite.gameName favoriteData)
                (or_null (InsertFavorite.gameImage favoriteData)) date in
  let uid := InsertFavorite.userId favoriteData in
  let userFavorites := default [] (favorites s !! uid) in
  let favorites' := <[uid := userFavorites ++ [newFavorite]]> (favorites s) in
  let users' :=
    match map_get uid (users s) with
    | Some user =>
        write_user uid
          (User.set_favoriteGames
             (User.favoriteGames user ++ [InsertFavorite.gameId favoriteData])
             user)
          (users s)
    | None => users s
    end in
  (newFavorite,
   mkStorage (gameCache s) users' favorites'
             (currentId s) (userId s) (favoriteId s + 1)).

Definition removeFavorite (uid gameId : Z) (s : MemStorage)
    : bool * MemStorage :=
  match favorites s !! uid with
  | None => (false, s)
  | Some userFavorites =>
      let initialLength := length userFavorites in
      let updatedFavorites :=
        filter (λ fav, Favorite.gameId fav ≠ gameId) userFavorites in
      if bool_decide (length updatedFavorites = initialLength)
      then (false, s)
      else
        let s1 := set_favorites (<[uid := updatedFavorites]>) s in
        match map_get uid (users s1) with
        | Some user =>
            (true,
             set_users
               (write_user uid
                  (User.set_favoriteGames
                     (filter (λ id, id ≠ gameId) (User.favoriteGames user))
                     user))
               s1)
        | None => (true, s1)
        end
  end.

Definition getUserFavorites (uid : Z) (s : MemStorage) : list Favorite.t :=
  default [] (favorites s !! uid).

End Storage.

Arguments MemStorage : clear implicits.

(** ** Query values and their JSON text

    [req.query] maps a parameter name to a string, to an array or to a nested
    object (the [qs] parser); a name that the request does not carry reads as
    [undefined]. *)

Inductive qval : Type :=
  | QStr (s : jsstring)
  | QArr (l : list qval)
  | QObj (l : list (jsstring * qval)).

(** What the key object of the listing handler can hold: a query value, the
    numeric default of a destructuring pattern, or [undefined]. *)
Inductive jsval : Type :=
  | Undefined
  | Num (n : N)
  | Val (v : qval).

Section Json.
Local Open Scope N_scope.

(** Code units used by the JSON grammar. *)
Definition QUOTE : N := 34.
Definition BACKSLASH : N := 92.
Definition COMMA : N := 44.
Definition COLON : N := 58.
Definition LBRACKET : N := 91.
Definition RBRACKET : N := 93.
Definition LBRACE : N := 123.
Definition RBRACE : N := 125.

Definition is_high_surrogate (c : N) : bool := (55296 <=? c) && (c <=? 56319).
Definition is_low_surrogate (c : N) : bool := (56320 <=? c) && (c <=? 57343).

(** Lower-case hexadecimal digit. *)
Definition hex_digit (d : N) : N := if d <? 10 then 48 + d else 87 + d.

(** [UnicodeEscape]: backslash, [u] and four hexadecimal digits. *)
Definition UnicodeEscape (c : N) : jsstring :=
  [BACKSLASH; 117; hex_digit (c / 4096 mod 16); hex_digit (c / 256 mod 16);
   hex_digit (c / 16 mod 16); hex_digit (c mod 16)].

(** One code unit that is not the first half of a surrogate pair. *)
Definition escape_unit (c : N) : jsstring :=
  if c =? 8 then [BACKSLASH; 98]
  else if c =? 9 then [BACKSLASH; 116]
  else if c =? 10 then [BACKSLASH; 110]
  else if c =? 12 then [BACKSLASH; 102]
  else if c =? 13 then [BACKSLASH; 114]
  else if c =? 34 then [BACKSLASH; QUOTE]
  else if c =? 92 then [BACKSLASH; BACKSLASH]
  else if (c <? 32) || is_high_surrogate c || is_low_surrogate c
       then UnicodeEscape c
  else [c].

(** The text between the quotes: code points are visited in order, a
    well-formed surrogate pair is copied, a lone surrogate is escaped. *)
Fixpoint quote_units (s : jsstring) : jsstring :=
  match s with
  | [] => []
  | c :: s' =>
      if is_high_surrogate c then
        match s' with
        | d :: s'' =>
            if is_low_surrogate d then c :: d :: quote_units s''
            else UnicodeEscape c ++ quote_units s'
        | [] => UnicodeEscape c
        end
      else escape_unit c ++ quote_units s'
  end.

Definition QuoteJSONString (s : jsstring) : jsstring :=
  QUOTE :: quote_units s ++ [QUOTE].

(** [Array.prototype.join(",")] on texts. *)
Fixpoint join_comma (l : list jsstring) : jsstring :=
  match l with
  | [] => []
  | [x] => x
  | x :: l' => x ++ COMMA :: join_comma l'
  end.

(** [Number::toString] on a non-negative integer. *)
Definition NumberToString (n : N) : jsstring :=
  js (DecimalString.NilZero.string_of_uint (N.to_uint n)).

(** [SerializeJSONProperty] on a query value (no gap, no replacer). *)
Fixpoint SerializeJSONValue (v : qval) : jsstring :=
  match v with
  | QStr s => QuoteJSONString s
  | QArr l => LBRACKET :: join_comma (map SerializeJSONValue l) ++ [RBRACKET]
  | QObj l =>
      LBRACE ::
        join_comma
          (map (λ p, QuoteJSONString p.1 ++ COLON :: SerializeJSONValue p.2) l)
        ++ [RBRACE]
  end.

(** [SerializeJSONProperty]: [undefined] has no text. *)
Definition SerializeJSONProperty (v : jsval) : option jsstring :=
  match v with
  | Undefined => None
  | Num n => Some (NumberToString n)
  | Val q => Some (SerializeJSONValue q)
  end.

(** The members of [SerializeJSONObject]: a property whose value has no text
    is skipped. *)
Definition members (props : list (jsstring * jsval)) : list jsstring :=
  omap (λ p, (λ str, QuoteJSONString p.1 ++ COLON :: str)
               <$> SerializeJSONProperty p.2) props.

(** [JSON.stringify] on an object literal. *)
Definition JSON_stringify (props : list (jsstring * jsval)) : jsstring :=
  LBRACE :: join_comma (members props) ++ [RBRACE].

(** [String(v)]. *)
Fixpoint ToString (v : qval) : jsstring :=
  match v with
  | QStr s => s
  | QArr l => join_comma (map ToString l)
  | QObj _ => js "[object Object]"
  end.

Definition String_ (v : jsval) : jsstring :=
  match v with
  | Undefined => js "undefined"
  | Num n => NumberToString n
  | Val q => ToString q
  end.

(** Truthiness: of the values at hand only [undefined] and the empty string
    are falsy. *)
Definition ToBoolean (v : jsval) : bool :=
  match v with
  | Undefined => false
  | Num n => negb (n =? 0)
  | Val (QStr []) => false
  | Val _ => true
  end.

(** [join_comma ms ++ close :: r] seen from its second member on: each
    further member is announced by a comma, the end by [close]. *)
Fixpoint sep_tail (ms : list jsstring) (close : N) (r : jsstring) : jsstring :=
  match ms with
  | [] => close :: r
  | m :: ms' => COMMA :: m ++ sep_tail ms' close r
  end.

(** *** Reading a quoted string back

    The inverse of [QuoteJSONString], used to show that the key text
    determines the parameters. *)

Definition unhex (h : N) : option N :=
  if (48 <=? h) && (h <=? 57) then Some (h - 48)
  else if (97 <=? h) && (h <=? 102) then Some (h - 87)
  else None.

Definition unescape (e : N) : option N :=
  if e =? 98 then Some 8
  else if e =? 116 then Some 9
  else if e =? 110 then Some 10
  else if e =? 102 then Some 12
  else if e =? 114 then Some 13
  else if e =? 34 then Some 34
  else if e =? 92 then Some 92
  else None.

(** Reads up to the closing quote; returns the code units read and the text
    after the quote. *)
Fixpoint read_units (s : jsstring) : option (jsstring * jsstring) :=
  match s with
  | [] => None
  | c :: s1 =>
      if c =? QUOTE then Some ([], s1)
      else if c =? BACKSLASH then
        match s1 with
        | [] => None
        | e :: s2 =>
            if e =? 117 then
              match s2 with
              | h3 :: h2 :: h1 :: h0 :: s3 =>
                  match unhex h3, unhex h2, unhex h1, unhex h0, read_units s3 with
                  | Some d3, Some d2, Some d1, Some d0, Some (u, r) =>
                      Some (d3 * 4096 + d2 * 256 + d1 * 16 + d0 :: u, r)
                  | _, _, _, _, _ => None
                  end
              | _ => None
              end
            else
              match unescape e, read_units s2 with
              | Some c', Some (u, r) => Some (c' :: u, r)
              | _, _ => None
              end
        end
      else
        match read_units s1 with
        | Some (u, r) => Some (c :: u, r)
        | None => None
        end
  end.

(** What reading makes of one more unit in front. *)
Definition consumed (c : N) (rest : option (jsstring * jsstring))
    : option (jsstring * jsstring) :=
  match rest with
  | Some (u, r) => Some (c :: u, r)
  | None => None
  end.

(** The text [f a] is recognised in front of any text. *)
Definition prefix_free {A : Type} (f : A → jsstring) (a : A) : Prop :=
  ∀ b r1 r2, f a ++ r1 = f b ++ r2 → a = b ∧ r1 = r2.

(** [JSON.stringify] on an object literal, from its second member on. *)
Definition object_tail (props : list (jsstring * jsval)) : jsstring :=
  sep_tail (members props) RBRACE [].

(** A member of the key that is left out when its parameter is unset, and a
    member that is always written, with the text of the default [d] when its
    parameter is unset. *)
Definition optional_member (name : string) (v : option qval) : jsstring :=
  match v with
  | Some q =>
      COMMA :: QuoteJSONString (js name) ++ COLON :: SerializeJSONValue q
  | None => []
  end.

Definition defaulted_text (d : N) (v : option qval) : jsstring :=
  match v with
  | Some q => SerializeJSONValue q
  | None => NumberToString d
  end.

(** The text [r] that follows a member named [name] closes the object or
    announces a member with another name. *)
Definition follows (name : string) (r : jsstring) : Prop :=
  (∃ t, r = RBRACE :: t) ∨
  (∃ name' t, r = COMMA :: QuoteJSONString name' ++ t ∧ name' ≠ js name).

End Json.

(** Reading a property of [req.query]. *)
Definition prop (query : gmap jsstring qval) (name : string) : jsval :=
  match query !! js name with
  | Some v => Val v
  | None => Undefined
  end.

(** A destructuring default [name = d] applies to [undefined] only. *)
Definition default_to (d : jsval) (v : jsval) : jsval :=
  match v with
  | Undefined => d
  | _ => v
  end.

(** The object literal handed to [JSON.stringify] by [GET /api/games]
    (routes.ts, lines 192-200). *)
Definition listing_key_object (query : gmap jsstring qval)
    : list (jsstring * jsval) :=
  let search := prop query "search" in
  let page := default_to (Num 1) (prop query "page") in
  let page_size := default_to (Num 20) (prop query "page_size") in
  let platforms := prop query "platforms" in
  let genres := prop query "genres" in
  let ordering := prop query "ordering" in
  let esrb_rating := prop query "esrb_rating" in
  [ (js "path", Val (QStr (js "/games")));
    (js "search", search);
    (js "page", page);
    (js "page_size", page_size);
    (js "platforms", platforms);
    (js "genres", genres);
    (js "ordering", ordering);
    (js "esrb_rating", esrb_rating) ].

Definition listing_cacheKey (query : gmap jsstring qval) : jsstring :=
  JSON_stringify (listing_key_object query).

Definition details_cacheKey (id : jsstring) : jsstring := js "/games/" ++ id.

Definition search_cacheKey (query : jsstring) : jsstring :=
  js "/search/" ++ query.

(** The seven request parameters of the listing key. *)
Definition listing_parameters : list string :=
  [ "search"; "page"; "page_size"; "platforms"; "genres"; "ordering";
    "esrb_rating" ]%string.

(** ** The cached catalogue handlers *)

(** [axios.get(url, { params })]. *)
Record upstream_call := mkCall {
  url : jsstring;
  params : list (jsstring * jsstring)
}.

Section Handlers.
Context {payload : Type}.

(** [process.env.RAWG_API_KEY || ""]. *)
Context (RAWG_API_KEY : jsstring).

Definition RAWG_API_URL : jsstring := js "https://api.rawg.io/api".

(** The promise returned by [axios.get]: resolved with [response.data], or
    rejected (network failure, non-2xx status). *)
Inductive reply : Type :=
  | Resolved (data : payload)
  | Rejected.

Inductive body : Type :=
  | Data (d : payload)
  | Message (m : jsstring).

(** [res.status(n).json(b)]; [res.json(b)] alone answers 200. *)
Record response := mkResponse {
  status : Z;
  json : body
}.

(** What one run of a handler leaves behind: the response, the upstream
    calls it made, and the store. *)
Record outcome := mkOutcome {
  sent : response;
  fetched : list upstream_call;
  store : MemStorage payload
}.

(** [if (v) params.name = String(v)]. *)
Definition optional_param (name : string) (v : jsval)
    : list (jsstring * jsstring) :=
  if ToBoolean v then [(js name, String_ v)] else [].

(** [GET /api/games] (routes.ts, lines 190-234).  [t_lookup] is the clock
    read inside [getGameCache], [t_store] the clock read after the upstream
    reply arrived. *)
Definition games_handler (query : gmap jsstring qval)
    (axios_get : upstream_call → reply) (t_lookup t_store : Z)
    (s : MemStorage payload) : outcome :=
  let search := prop query "search" in
  let page := default_to (Num 1) (prop query "page") in
  let page_size := default_to (Num 20) (prop query "page_size") in
  let platforms := prop query "platforms" in
  let genres := prop query "genres" in
  let ordering := prop query "ordering" in
  let esrb_rating := prop query "esrb_rating" in
  let cacheKey := listing_cacheKey query in
  let '(cachedData, s1) := getGameCache cacheKey t_lookup s in
  match cachedData with
  | Some cached => mkOutcome (mkResponse 200 (Data (GameCache.data cached))) [] s1
  | None =>
      let call :=
        mkCall (RAWG_API_URL ++ js "/games")
          ([ (js "key", RAWG_API_KEY);
             (js "page_size", String_ page_size);
             (js "page", String_ page) ]
           ++ optional_param "search" search
           ++ optional_param "platforms" platforms
           ++ optional_param "genres" genres
           ++ optional_param "ordering" ordering
           ++ optional_param "esrb_rating" esrb_rating) in
      match axios_get call with
      | Resolved data =>
          let now := t_store in
          let '(_, s2) := cacheGameData cacheKey data (now + 3600) s1 in
          mkOutcome (mkResponse 200 (Data data)) [call] s2
      | Rejected =>
          mkOutcome (mkResponse 500 (Message (js "Failed to fetch games")))
                    [call] s1
      end
  end.

(** [GET /api/games/:id] (routes.ts, lines 237-262). *)
Definition details_handler (id : jsstring)
    (axios_get : upstream_call → reply) (t_lookup t_store : Z)
    (s : MemStorage payload) : outcome :=
  let cacheKey := details_cacheKey id in
  let '(cachedData, s1) := getGameCache cacheKey t_lookup s in
  match cachedData with
  | Some cached => mkOutcome (mkResponse 200 (Data (GameCache.data cached))) [] s1
  | None =>
      let call :=
        mkCall (RAWG_API_URL ++ js "/games/" ++ id)
               [ (js "key", RAWG_API_KEY) ] in
      match axios_get call with
      | Resolved data =>
          let now := t_store in
          let '(_, s2) := cacheGameData cacheKey data (now + 86400) s1 in
          mkOutcome (mkResponse 200 (Data data)) [call] s2
      | Rejected =>
          mkOutcome
            (mkResponse 500 (Message (js "Failed to fetch game details")))
            [call] s1
      end
  end.

(** The handler registered for [GET /api/games/search] (routes.ts, lines
    265-299).  [!query || typeof query !== 'string'] rejects an absent
    parameter, the empty string, arrays and objects. *)
Definition search_handler (query : gmap jsstring qval)
    (axios_get : upstream_call → reply) (t_lookup t_store : Z)
    (s : MemStorage payload) : outcome :=
  match query !! js "query" with
  | Some (QStr (c :: q')) =>
      let query := c :: q' in
      let cacheKey := search_cacheKey query in
      let '(cachedData, s1) := getGameCache cacheKey t_lookup s in
      match cachedData with
      | Some cached =>
          mkOutcome (mkResponse 200 (Data (GameCache.data cached))) [] s1
      | None =>
          let call :=
            mkCall (RAWG_API_URL ++ js "/games")
                   [ (js "key", RAWG_API_KEY);
                     (js "search", query);
                     (js "page_size", NumberToString 10) ] in
          match axios_get call with
          | Resolved data =>
              let now := t_store in
              let '(_, s2) := cacheGameData cacheKey data (now + 1800) s1 in
              mkOutcome (mkResponse 200 (Data data)) [call] s2
          | Rejected =>
              mkOutcome
                (mkResponse 500 (Message (js "Failed to search games")))
                [call] s1
          end
      end
  | _ =>
      mkOutcome (mkResponse 400 (Message (js "Search query is required")))
                [] s
  end.

End Handlers.

Arguments reply : clear implicits.
Arguments body : clear implicits.
Arguments response : clear implicits.
Arguments outcome : clear implicits.

(** ** Route dispatch

    [registerRoutes] registers the handlers with [app.post], [app.get] and
    [app.delete] in the order below; Express walks the routes in registration
    order and runs the first one whose method and path pattern match.  None
    of the handlers calls [next()], so no later route is tried. *)

Inductive method : Type := GET | POST | DELETE.

Inductive route : Type :=
  | AuthRegister | AuthLogin | AuthLogout | AuthUser
  | FavoritesAdd | FavoritesRemove | FavoritesList
  | Games | GameDetails | GamesSearch.

(** A segment of a path pattern: fixed text, or [:name]. *)
Inductive segment : Type :=
  | Lit (text : string)
  | Named (name : string).

Global Instance method_eq_dec : EqDecision method.
Proof. solve_decision. Defined.

Definition routes : list (method * list segment * route) :=
  [ (POST, [Lit "api"; Lit "auth"; Lit "register"], AuthRegister);
    (POST, [Lit "api"; Lit "auth"; Lit "login"], AuthLogin);
    (GET, [Lit "api"; Lit "auth"; Lit "logout"], AuthLogout);
    (GET, [Lit "api"; Lit "auth"; Lit "user"], AuthUser);
    (POST, [Lit "api"; Lit "favorites"], FavoritesAdd);
    (DELETE, [Lit "api"; Lit "favorites"; Named "gameId"], FavoritesRemove);
    (GET, [Lit "api"; Lit "favorites"], FavoritesList);
    (GET, [Lit "api"; Lit "games"], Games);
    (GET, [Lit "api"; Lit "games"; Named "id"], GameDetails);
    (GET, [Lit "api"; Lit "games"; Lit "search"], GamesSearch) ]%string.

(** A pattern against the segments of the request path; [:name] takes one
    non-empty segment.  The result is [req.params]. *)
Fixpoint match_path (pattern : list segment) (path : list jsstring)
    : option (list (string * jsstring)) :=
  match pattern, path with
  | [], [] => Some []
  | Lit text :: pattern', seg :: path' =>
      if decide (seg = js text) then match_path pattern' path' else None
  | Named name :: pattern', seg :: path' =>
      match seg with
      | [] => None
      | _ => (λ ps, (name, seg) :: ps) <$> match_path pattern' path'
      end
  | _, _ => None
  end.

Fixpoint first_match (table : list (method * list segment * route))
    (m : method) (path : list jsstring)
    : option (route * list (string * jsstring)) :=
  match table with
  | [] => None
  | (m', pattern, r) :: table' =>
      if decide (m = m') then
        match match_path pattern path with
        | Some ps => Some (r, ps)
        | None => first_match table' m path
        end
      else first_match table' m path
  end.

Definition dispatch (m : method) (path : list jsstring)
    : option (route * list (string * jsstring)) :=
  first_match routes m path.

(** [req.params.id], as the template literal prints it. *)
Fixpoint param_id (ps : list (string * jsstring)) : jsstring :=
  match ps with
  | (name, v) :: ps' => if decide (name = "id"%string) then v else param_id ps'
  | [] => js "undefined"
  end.

(** A request to the catalogue routes, served by the handler that dispatch
    selects.  The account and favourites routes are not served here. *)
Definition serve {payload : Type} (RAWG_API_KEY : jsstring)
    (m : method) (path : list jsstring) (query : gmap jsstring qval)
    (axios_get : upstream_call → reply payload) (t_lookup t_store : Z)
    (s : MemStorage payload) : option (outcome payload) :=
  match dispatch m path with
  | Some (Games, _) =>
      Some (games_handler RAWG_API_KEY query axios_get t_lookup t_store s)
  | Some (GameDetails, ps) =>
      Some (details_handler RAWG_API_KEY (param_id ps) axios_get
              t_lookup t_store s)
  | Some (GamesSearch, _) =>
      Some (search_handler RAWG_API_KEY query axios_get t_lookup t_store s)
  | _ => None
  end.

(** The three cached requests, with the key each one looks up (none when
    the search handler rejects its query). *)
Inductive cached_request : Type :=
  | ListingRequest (query : gmap jsstring qval)
  | DetailsRequest (id : jsstring)
  | SearchRequest (query : gmap jsstring qval).

Definition handle {payload : Type} (RAWG_API_KEY : jsstring)
    (r : cached_request) (axios_get : upstream_call → reply payload)
    (t_lookup t_store : Z) (s : MemStorage payload) : outcome payload :=
  match r with
  | ListingRequest query =>
      games_handler RAWG_API_KEY query axios_get t_lookup t_store s
  | DetailsRequest id =>
      details_handler RAWG_API_KEY id axios_get t_lookup t_store s
  | SearchRequest query =>
      search_handler RAWG_API_KEY query axios_get t_lookup t_store s
  end.

Definition cacheKey_of (r : cached_request) : option jsstring :=
  match r with
  | ListingRequest query => Some (listing_cacheKey query)
  | DetailsRequest id => Some (details_cacheKey id)
  | SearchRequest query =>
      match query !! js "query" with
      | Some (QStr (c :: q')) => Some (search_cacheKey (c :: q'))
      | _ => None
      end
  end.

(** ** Histories of store calls *)

Section History.
Context {payload : Type}.

Inductive call : Type :=
  | GetGameCache (key : jsstring) (now : Z)
  | CacheGameData (key : jsstring) (data : payload) (timestamp : Z)
  | ClearExpiredCache (now : Z)
  | CreateUser (userData : InsertUser.t) (hashedPassword : jsstring) (date : Z)
  | AddFavorite (favoriteData : InsertFavorite.t) (date : Z)
  | RemoveFavorite (uid gameId : Z).

Definition step (s : MemStorage payload) (c : call) : MemStorage payload :=
  match c with
  | GetGameCache key now => (getGameCache key now s).2
  | CacheGameData key data timestamp => (cacheGameData key data timestamp s).2
  | ClearExpiredCache now => clearExpiredCache now s
  | CreateUser userData hashedPassword date =>
      (createUser userData hashedPassword date s).2
  | AddFavorite favoriteData date => (addFavorite favoriteData date s).2
  | RemoveFavorite uid gameId => (removeFavorite uid gameId s).2
  end.

Definition run (s : MemStorage payload) (h : list call) : MemStorage payload :=
  foldl step s h.

(** The history writes no cache entry under [key]. *)
Definition no_put (key : jsstring) (h : list call) : Prop :=
  Forall (λ c, match c with
               | CacheGameData key' _ _ => key' ≠ key
               | _ => True
               end) h.

(** Every clock reading of the history is at most [now]. *)
Definition not_after (now : Z) (h : list call) : Prop :=
  Forall (λ c, match c with
               | GetGameCache _ t | ClearExpiredCache t => t ≤ now
               | _ => True
               end) h.

(** Every [addFavorite] of the history names a user stored at that point. *)
Fixpoint adds_known (s : MemStorage payload) (h : list call) : Prop :=
  match h with
  | [] => True
  | c :: h' =>
      match c with
      | AddFavorite favoriteData _ =>
          is_Some (getUserById (InsertFavorite.userId favoriteData) s)
      | _ => True
      end ∧ adds_known (step s c) h'
  end.

(** The number of [createUser] calls in a history. *)
Definition is_CreateUser (c : call) : bool :=
  match c with
  | CreateUser _ _ _ => true
  | _ => false
  end.

Definition creations (h : list call) : nat :=
  length (List.filter is_CreateUser h).

(** *** Invariants of the account and favourites maps *)

(** Every entry of [users] sits under the id of its user, ids are below the
    counter, and the entries are in increasing id order. *)
Definition users_wf (s : MemStorage payload) : Prop :=
  Forall (λ p, User.id p.2 = p.1 ∧ p.1 < userId s) (users s) ∧
  StronglySorted Z.lt (users s).*1.

(** A favourites list exists only for a stored user. *)
Definition no_orphans (s : MemStorage payload) : Prop :=
  ∀ uid, is_Some (favorites s !! uid) → is_Some (getUserById uid s).

(** [favoriteGames] mirrors the favourites list. *)
Definition mirrored (s : MemStorage payload) : Prop :=
  ∀ uid user, getUserById uid s = Some user →
    User.favoriteGames user = Favorite.gameId <$> getUserFavorites uid s.

End History.

Arguments call : clear implicits.

(** The removal the specification words describe: only the first favourite
    with the given game id leaves the list.  ([removeFavorite] above is the
    code; this definition exists to be compared with it.) *)
Fixpoint remove_first_match (gameId : Z) (l : list Favorite.t)
    : list Favorite.t :=
  match l with
  | [] => []
  | fav :: l' =>
      if decide (Favorite.gameId fav = gameId) then l'
      else fav :: remove_first_match gameId l'
  end.

(** ** Sample stores and requests

    Explicit inputs for the concrete runs at the end.  Payloads are integers
    here. *)

Definition alice : InsertUser.t :=
  InsertUser.mk (js "alice@example.org") (js "alice") (js "secret") None.

(** One user (id 1) and nothing else. *)
Definition with_alice : MemStorage Z :=
  (createUser alice (js "$2b$10$hash") 0 new_MemStorage).2.

(** The user as [createUser] stores it. *)
Definition alice_stored : User.t :=
  User.mk 1 (js "alice@example.org") (js "alice") (js "$2b$10$hash") 0 None [].

(** The same user with two favourites for game 7. *)
Definition with_duplicates : MemStorage Z :=
  run with_alice
    [ AddFavorite (InsertFavorite.mk 1 7 (js "Portal") None) 10;
      AddFavorite (InsertFavorite.mk 1 7 (js "Portal") None) 20 ].

(** A history that creates a user, adds three favourites and removes one. *)
Definition sample_history : list (call Z) :=
  [ CreateUser alice (js "$2b$10$hash") 0;
    AddFavorite (InsertFavorite.mk 1 7 (js "Portal") None) 10;
    AddFavorite (InsertFavorite.mk 1 9 (js "Celeste") None) 20;
    AddFavorite (InsertFavorite.mk 1 7 (js "Portal") None) 30;
    RemoveFavorite 1 9 ].

(** An entry stored under ["k"] that expires at second 100. *)
Definition cached_until_100 : MemStorage Z :=
  (cacheGameData (js "k") 7 100 new_MemStorage).2.

(** The detail entry of game 42, expired since second 5. *)
Definition stale_details : MemStorage Z :=
  (cacheGameData (details_cacheKey (js "42")) 7 5 new_MemStorage).2.

(** Upstream is down. *)
Definition upstream_down : upstream_call → reply Z := λ _, Rejected.

(** Upstream answers every call with the payload 7. *)
Definition upstream_up : upstream_call → reply Z := λ _, Resolved 7.

(** The query string [?query=mario]. *)
Definition query_mario : gmap jsstring qval :=
  {[ js "query" := QStr (js "mario") ]}.

(** Store calls that follow a write of key ["k"] without writing it again. *)
Definition sample_cache_history : list (call Z) :=
  [ GetGameCache (js "k") 120;
    ClearExpiredCache 130;
    CacheGameData (js "other") 1 10;
    GetGameCache (js "other") 135 ].

(** A listing request that sets no parameter. *)
Definition no_parameters : gmap jsstring qval := ∅.

(** ** Further invariants of the store *)

Section StoreInvariants.
Context {payload : Type}.

(** Every cache entry sits under its own key and carries an id handed out
    before; two keys never hold the same id. *)
Definition cache_wf (s : MemStorage payload) : Prop :=
  1 ≤ currentId s ∧
  (∀ key item, gameCache s !! key = Some item →
     GameCache.key item = key ∧ 1 ≤ GameCache.id item < currentId s) ∧
  (∀ key1 key2 item1 item2,
     gameCache s !! key1 = Some item1 → gameCache s !! key2 = Some item2 →
     GameCache.id item1 = GameCache.id item2 → key1 = key2).

(** Every favourite is filed under its own user, carries an id handed out
    before, and each list is in increasing id order. *)
Definition favorites_wf (s : MemStorage payload) : Prop :=
  1 ≤ favoriteId s ∧
  ∀ uid,
    Forall (λ fav, Favorite.userId fav = uid ∧
                   1 ≤ Favorite.id fav < favoriteId s)
           (getUserFavorites uid s) ∧
    StronglySorted Z.lt (Favorite.id <$> getUserFavorites uid s).

(** A favourite id is stored once in the whole store. *)
Definition favorite_ids_unique (s : MemStorage payload) : Prop :=
  ∀ uid1 uid2 fav1 fav2,
    fav1 ∈ getUserFavorites uid1 s → fav2 ∈ getUserFavorites uid2 s →
    Favorite.id fav1 = Favorite.id fav2 → uid1 = uid2 ∧ fav1 = fav2.

(** The number of [cacheGameData] calls in a history. *)
Definition writes (h : list (call payload)) : nat :=
  length (List.filter (λ c, match c with
                            | CacheGameData _ _ _ => true
                            | _ => false
                            end) h).

(** The number of [addFavorite] calls in a history. *)
Definition additions (h : list (call payload)) : nat :=
  length (List.filter (λ c, match c with
                            | AddFavorite _ _ => true
                            | _ => false
                            end) h).

End StoreInvariants.

(** The seconds each cached handler adds to the clock when it stores a reply
    (routes.ts, lines 227, 255 and 292). *)
Definition lifetime (r : cached_request) : Z :=
  match r with
  | ListingRequest _ => 3600
  | DetailsRequest _ => 86400
  | SearchRequest _ => 1800
  end.

(** ** The account and favourites routes

    The handlers of routes.ts, lines 13-187.  A handler reads
    [req.session.userId] (absent when the session holds none) and may set it;
    it is an argument and a result here.  Request bodies are the typed values
    the store methods take.  Every handler wraps its work in [try]/[catch];
    none of the store methods it calls throws, so the 500 branches of the
    handlers other than logout are not reached and not modelled. *)

Module PublicUser.
Record t := mk {
  id : Z;
  email : jsstring;
  username : jsstring;
  createdAt : Z;
  profilePicture : option jsstring;
  favoriteGames : list Z
}.
End PublicUser.

(** [const { password: _, ...userWithoutPassword } = user]. *)
Definition without_password (user : User.t) : PublicUser.t :=
  PublicUser.mk (User.id user) (User.email user) (User.username user)
                (User.createdAt user) (User.profilePicture user)
                (User.favoriteGames user).

Section Routes.
Context {payload issues : Type}.

(** [insertUserSchema.safeParse] (the schema is declared in [@shared/schema],
    which is not among the sources): the issues it reports, none when the
    data passes. *)
Context (safeParse : InsertUser.t → option issues).

(** [bcrypt.compare(password, hashedPassword)]. *)
Context (bcrypt_compare : jsstring → jsstring → bool).

Definition validatePassword (password hashedPassword : jsstring) : bool :=
  bcrypt_compare password hashedPassword.

(** The JSON bodies the handlers send. *)
Inductive content : Type :=
  | OnlyMessage (message : jsstring)
  | MessageAndErrors (message : jsstring) (errors : issues)
  | MessageAndUser (message : jsstring) (user : PublicUser.t)
  | TheUser (user : PublicUser.t)
  | TheFavorite (favorite : Favorite.t)
  | TheFavorites (list_of : list Favorite.t).

Record answer := mkAnswer {
  code : Z;
  content_of : content
}.

(** The answer, [req.session.userId] when the handler returns, and the
    store. *)
Record result := mkResult {
  answered : answer;
  session_after : option Z;
  store_after : MemStorage payload
}.

(** [req.session && req.session.userId]: a user id that is not zero. *)
Definition isAuthenticated (session : option Z) : bool :=
  match session with
  | Some uid => negb (uid =? 0)
  | None => false
  end.

Definition not_authenticated (session : option Z) (s : MemStorage payload)
    : result :=
  mkResult
    (mkAnswer 401
       (OnlyMessage
          (js "Non sei autenticato. Effettua il login per continuare.")))
    session s.

(** [POST /api/auth/register] (lines 25-77).  [hashedPassword] and [date] are
    what [bcrypt.hash] and [new Date()] give inside [createUser]. *)
Definition register (email username password : jsstring)
    (hashedPassword : jsstring) (date : Z)
    (session : option Z) (s : MemStorage payload) : result :=
  match safeParse (InsertUser.mk email username password None) with
  | Some errors =>
      mkResult
        (mkAnswer 400
           (MessageAndErrors (js "Dati di registrazione non validi") errors))
        session s
  | None =>
      match getUserByEmail email s with
      | Some existingUserByEmail =>
          mkResult
            (mkAnswer 400
               (OnlyMessage (js "Email gi" ++ [224%N] ++ js " in uso")))
            session s
      | None =>
          match getUserByUsername username s with
          | Some existingUserByUsername =>
              mkResult
                (mkAnswer 400
                   (OnlyMessage
                      (js "Nome utente gi" ++ [224%N] ++ js " in uso")))
                session s
          | None =>
              let '(newUser, s') :=
                createUser (InsertUser.mk email username password None)
                           hashedPassword date s in
              mkResult
                (mkAnswer 201
                   (MessageAndUser
                      (js "Registrazione completata con successo")
                      (without_password newUser)))
                (Some (User.id newUser)) s'
          end
      end
  end.

(** [POST /api/auth/login] (lines 79-109). *)
Definition login (email password : jsstring)
    (session : option Z) (s : MemStorage payload) : result :=
  match getUserByEmail email s with
  | None =>
      mkResult (mkAnswer 401 (OnlyMessage (js "Credenziali non valide")))
               session s
  | Some user =>
      if validatePassword password (User.password user)
      then
        mkResult
          (mkAnswer 200
             (MessageAndUser (js "Login effettuato con successo")
                             (without_password user)))
          (Some (User.id user)) s
      else
        mkResult (mkAnswer 401 (OnlyMessage (js "Credenziali non valide")))
                 session s
  end.

(** [GET /api/auth/logout] (lines 111-118).  [destroy_failed] tells whether
    [req.session.destroy] hands an error to its callback; the session then
    stays in the session store. *)
Definition logout (destroy_failed : bool)
    (session : option Z) (s : MemStorage payload) : result :=
  if destroy_failed
  then mkResult (mkAnswer 500 (OnlyMessage (js "Errore durante il logout")))
                session s
  else mkResult
         (mkAnswer 200 (OnlyMessage (js "Logout effettuato con successo")))
         None s.

(** [GET /api/auth/user] (lines 120-137). *)
Definition auth_user (session : option Z) (s : MemStorage payload) : result :=
  match session with
  | Some userId' =>
      if isAuthenticated session then
        match getUserById userId' s with
        | None =>
            mkResult (mkAnswer 404 (OnlyMessage (js "Utente non trovato")))
                     session s
        | Some user =>
            mkResult (mkAnswer 200 (TheUser (without_password user)))
                     session s
        end
      else not_authenticated session s
  | None => not_authenticated session s
  end.

(** [POST /api/favorites] (lines 140-157). *)
Definition favorites_add (gameId : Z) (gameName : jsstring)
    (gameImage : option jsstring) (date : Z)
    (session : option Z) (s : MemStorage payload) : result :=
  match session with
  | Some userId' =>
      if isAuthenticated session then
        let '(favorite, s') :=
          addFavorite (InsertFavorite.mk userId' gameId gameName gameImage)
                      date s in
        mkResult (mkAnswer 201 (TheFavorite favorite)) session s'
      else not_authenticated session s
  | None => not_authenticated session s
  end.

(** [DELETE /api/favorites/:gameId] (lines 159-175).  [gameId] is
    [parseInt(req.params.gameId)], absent when that is [NaN]: [NaN] differs
    from every game id, so [removeFavorite] keeps every favourite and returns
    false. *)
Definition favorites_remove (gameId : option Z)
    (session : option Z) (s : MemStorage payload) : result :=
  match session with
  | Some userId' =>
      if isAuthenticated session then
        let '(success, s') :=
          match gameId with
          | Some g => removeFavorite userId' g s
          | None => (false, s)
          end in
        if success
        then mkResult
               (mkAnswer 200
                  (OnlyMessage (js "Preferito rimosso con successo")))
               session s'
        else mkResult
               (mkAnswer 404 (OnlyMessage (js "Preferito non trovato")))
               session s'
      else not_authenticated session s
  | None => not_authenticated session s
  end.

(** [GET /api/favorites] (lines 177-187). *)
Definition favorites_list (session : option Z) (s : MemStorage payload)
    : result :=
  match session with
  | Some userId' =>
      if isAuthenticated session
      then mkResult (mkAnswer 200 (TheFavorites (getUserFavorites userId' s)))
                    session s
      else not_authenticated session s
  | None => not_authenticated session s
  end.

(** What a handler can do to the store and to the session: nothing, close
    the session, open it for a stored user, create a user (whose e-mail and
    user name no stored user carries) and open the session for it, add a
    favourite for the user of the session, or remove favourites. *)
Inductive effect (session : option Z) (s : MemStorage payload)
    : result → Prop :=
  | NoEffect a :
      effect session s (mkResult a session s)
  | SessionClosed a :
      effect session s (mkResult a None s)
  | SessionOpened a user :
      user ∈ map_values (users s) →
      effect session s (mkResult a (Some (User.id user)) s)
  | UserCreated a userData hashed date :
      getUserByEmail (InsertUser.email userData) s = None →
      getUserByUsername (InsertUser.username userData) s = None →
      effect session s
        (mkResult a (Some (userId s)) (createUser userData hashed date s).2)
  | FavoriteAdded a favoriteData date :
      session = Some (InsertFavorite.userId favoriteData) →
      effect session s (mkResult a session (addFavorite favoriteData date s).2)
  | FavoriteRemoved a uid g :
      effect session s (mkResult a session (removeFavorite uid g s).2).

(** *** The server across requests

    The session middleware keeps one session per session id; a request
    carries the id of its session. *)

Record server := mkServer {
  db : MemStorage payload;
  sessions : gmap N Z
}.

Inductive request : Type :=
  | PostRegister (sid : N) (email username password hashedPassword : jsstring)
                 (date : Z)
  | PostLogin (sid : N) (email password : jsstring)
  | GetLogout (sid : N) (destroy_failed : bool)
  | GetAuthUser (sid : N)
  | PostFavorite (sid : N) (gameId : Z) (gameName : jsstring)
                 (gameImage : option jsstring) (date : Z)
  | DeleteFavorite (sid : N) (gameId : option Z)
  | GetFavorites (sid : N).

Definition session_id (req : request) : N :=
  match req with
  | PostRegister sid _ _ _ _ _ | PostLogin sid _ _ | GetLogout sid _
  | GetAuthUser sid | PostFavorite sid _ _ _ _ | DeleteFavorite sid _
  | GetFavorites sid => sid
  end.

(** The handler of a request, on the session the request belongs to. *)
Definition run_handler (req : request) (session : option Z)
    (s : MemStorage payload) : result :=
  match req with
  | PostRegister _ email username password hashedPassword date =>
      register email username password hashedPassword date session s
  | PostLogin _ email password => login email password session s
  | GetLogout _ destroy_failed => logout destroy_failed session s
  | GetAuthUser _ => auth_user session s
  | PostFavorite _ gameId gameName gameImage date =>
      favorites_add gameId gameName gameImage date session s
  | DeleteFavorite _ gameId => favorites_remove gameId session s
  | GetFavorites _ => favorites_list session s
  end.

Definition save_session (sid : N) (session : option Z) (m : gmap N Z)
    : gmap N Z :=
  match session with
  | Some uid => <[sid := uid]> m
  | None => delete sid m
  end.

Definition serve_request (sv : server) (req : request) : answer * server :=
  let sid := session_id req in
  let res := run_handler req (sessions sv !! sid) (db sv) in
  (answered res,
   mkServer (store_after res) (save_session sid (session_after res) (sessions sv))).

Definition serve_all (sv : server) (reqs : list request) : server :=
  foldl (λ sv req, (serve_request sv req).2) sv reqs.

Definition new_server : server := mkServer new_MemStorage ∅.

(** Every session that holds a user id holds the id of a stored user. *)
Definition sessions_valid (sv : server) : Prop :=
  ∀ sid uid, sessions sv !! sid = Some uid → is_Some (getUserById uid (db sv)).

(** No two stored users share an e-mail or a user name. *)
Definition identities_unique (s : MemStorage payload) : Prop :=
  NoDup (User.email <$> map_values (users s)) ∧
  NoDup (User.username <$> map_values (users s)).

End Routes.

Arguments content : clear implicits.
Arguments answer : clear implicits.
Arguments result : clear implicits.
Arguments server : clear implicits.
Arguments request : clear implicits.

(** What every reachable server state satisfies. *)
Definition server_ok {payload : Type} (sv : server payload) : Prop :=
  users_wf (db sv) ∧ no_orphans (db sv) ∧ mirrored (db sv) ∧
  identities_unique (db sv) ∧ sessions_valid sv.

(** The requests whose route goes through [isAuthenticated]. *)
Definition is_protected (req : request) : bool :=
  match req with
  | GetAuthUser _ | PostFavorite _ _ _ _ _ | DeleteFavorite _ _
  | GetFavorites _ => true
  | _ => false
  end.

(** ** Sample servers and requests

    Explicit inputs for the concrete runs of the routes.  The schema check
    stands in for the missing schema (here it rejects an empty password), the
    comparison for [bcrypt.compare] (here a hash is the password behind a
    fixed prefix). *)

Definition sample_safeParse (data : InsertUser.t) : option unit :=
  match InsertUser.password data with
  | [] => Some tt
  | _ => None
  end.

Definition sample_hash (password : jsstring) : jsstring :=
  js "$2b$10$" ++ password.

Definition sample_compare (password hashedPassword : jsstring) : bool :=
  bool_decide (hashedPassword = sample_hash password).

(** A server on which one user, Bob, has registered in session 1. *)
Definition server_with_bob : server Z :=
  serve_all sample_safeParse sample_compare new_server
    [ PostRegister 1 (js "bob@example.org") (js "bob") (js "hunter2")
                   (sample_hash (js "hunter2")) 5 ].

(** Alice registers in session 2. *)
Definition alice_registers : request :=
  PostRegister 2 (js "alice@example.org") (js "alice") (js "secret")
               (sample_hash (js "secret")) 10.

(** What Alice does next: a favourite, and a logout. *)
Definition alice_continues : list request :=
  [ PostFavorite 2 7 (js "Portal") None 20; GetLogout 2 false ].

(** The store right after construction, with integer payloads. *)
Definition empty_store : MemStorage Z := new_MemStorage.

(** * Properties *)

(** ** The ordered map *)

Section OrderedMapFacts.
Context {V : Type}.
Implicit Types (m : list (Z * V)) (k : Z) (v : V).

Lemma map_get_set_eq m k v : map_get k (map_set k v m) = Some v.
Proof.
  induction m as [|[k' v'] m IH]; simpl.
  - by rewrite decide_True.
  - destruct (decide (k = k')) as [->|Hne]; simpl.
    + by rewrite decide_True.
    + by rewrite decide_False.
Qed.

Lemma map_get_set_ne m k k' v :
  k ≠ k' → map_get k' (map_set k v m) = map_get k' m.
Proof.
  intros Hne. induction m as [|[k0 v0] m IH]; simpl.
  - by rewrite decide_False.
  - destruct (decide (k = k0)) as [->|Hk]; simpl.
    + by rewrite !decide_False.
    + by rewrite IH.
Qed.

Lemma map_get_Some m k v : map_get k m = Some v → (k, v) ∈ m.
Proof.
  induction m as [|[k' v'] m IH]; simpl; [done|].
  destruct (decide (k = k')) as [->|Hne].
  - intros [= ->]. left.
  - intros H. right. by apply IH.
Qed.

Lemma map_get_None m k : map_get k m = None ↔ k ∉ m.*1.
Proof.
  induction m as [|[k' v'] m IH]; simpl.
  - split; [intros _; apply not_elem_of_nil | done].
  - rewrite not_elem_of_cons. destruct (decide (k = k')) as [->|Hne].
    + split; [done | by intros [? _]].
    + rewrite IH. tauto.
Qed.

(** Setting a key that is absent appends the entry. *)
Lemma map_set_fresh m k v : k ∉ m.*1 → map_set k v m = m ++ [(k, v)].
Proof.
  induction m as [|[k' v'] m IH]; simpl; [done|].
  rewrite not_elem_of_cons. intros [Hne Hnin].
  rewrite decide_False by done. by rewrite IH.
Qed.

(** Setting a key that is present keeps every key where it stands. *)
Lemma map_set_keys m k v : is_Some (map_get k m) → (map_set k v m).*1 = m.*1.
Proof.
  induction m as [|[k' v'] m IH]; cbn [map_get map_set].
  - by intros [? ?].
  - destruct (decide (k = k')) as [->|Hne]; [done|].
    intros H. rewrite !fmap_cons. f_equal. by apply IH.
Qed.

Lemma map_set_Forall (P : Z * V → Prop) m k v :
  P (k, v) → Forall P m → Forall P (map_set k v m).
Proof.
  intros Hkv Hm. induction m as [|[k' v'] m IH]; simpl.
  - by constructor.
  - apply Forall_cons in Hm as [Hx Hm].
    destruct (decide (k = k')); constructor; auto.
Qed.

Lemma map_set_elem m k v p :
  p ∈ map_set k v m → p = (k, v) ∨ p ∈ m.
Proof.
  induction m as [|[k' v'] m IH]; simpl.
  - rewrite list_elem_of_singleton. by left.
  - destruct (decide (k = k')) as [->|Hne]; rewrite !elem_of_cons.
    + intros [->|H]; [by left | right; by right].
    + intros [->|H]; [right; by left|]. destruct (IH H); auto.
Qed.

End OrderedMapFacts.

(** ** The cache store *)

Section CacheProperties.
Context {payload : Type}.
Implicit Types (s : MemStorage payload) (key : jsstring) (now : Z).
Implicit Types (item : GameCache.t payload) (h : list (call payload)).
Implicit Types (cache : gmap jsstring (GameCache.t payload)).

Lemma getGameCache_absent key now s :
  gameCache s !! key = None → getGameCache key now s = (None, s).
Proof. unfold getGameCache. by intros ->. Qed.

Lemma getGameCache_expired key now s item :
  gameCache s !! key = Some item → GameCache.timestamp item < now →
  getGameCache key now s = (None, set_gameCache (delete key) s).
Proof.
  unfold getGameCache. intros -> Hlt. by rewrite bool_decide_eq_true_2.
Qed.

Lemma getGameCache_live key now s item :
  gameCache s !! key = Some item → now ≤ GameCache.timestamp item →
  getGameCache key now s = (Some item, s).
Proof.
  unfold getGameCache. intros -> Hle. rewrite bool_decide_eq_false_2; [done|lia].
Qed.

(** A lookup only ever removes the entry it looked at. *)
Lemma getGameCache_store key now s :
  (getGameCache key now s).2 = s ∨
  (getGameCache key now s).2 = set_gameCache (delete key) s.
Proof.
  unfold getGameCache. destruct (gameCache s !! key); [|by left].
  case_bool_decide; [by right | by left].
Qed.

(** The sweep, turn by turn, over any snapshot of entries. *)
Lemma foldl_sweep_lookup now (l : list (jsstring * GameCache.t payload)) cache key :
  foldl (sweep_entry now) cache l !! key =
    if decide (Exists (λ e, e.1 = key ∧ GameCache.timestamp e.2 < now) l)
    then None else cache !! key.
Proof.
  revert cache. induction l as [|[k v] l IH]; intros cache; cbn [foldl].
  - rewrite decide_False; [done|]. intros H. by apply Exists_nil in H.
  - rewrite IH. unfold sweep_entry; cbn [fst snd].
    destruct (decide (Exists _ l)) as [Hl|Hl].
    + rewrite decide_True; [done|]. by right.
    + case_bool_decide as Hv.
      * destruct (decide (k = key)) as [->|Hne].
        -- rewrite decide_True; [|left; done]. apply lookup_delete_eq.
        -- rewrite decide_False.
           ++ by apply lookup_delete_ne.
           ++ rewrite Exists_cons. simpl. tauto.
      * rewrite decide_False; [done|].
        rewrite Exists_cons. simpl. tauto.
Qed.

Lemma clearExpiredCache_lookup now s key :
  gameCache (clearExpiredCache now s) !! key =
    match gameCache s !! key with
    | Some item =>
        if bool_decide (GameCache.timestamp item < now) then None
        else Some item
    | None => None
    end.
Proof.
  unfold clearExpiredCache; simpl. rewrite foldl_sweep_lookup.
  destruct (gameCache s !! key) as [item|] eqn:Hk.
  - case_bool_decide as Hv.
    + rewrite decide_True; [done|]. apply Exists_exists.
      exists (key, item). split; [|done]. by apply elem_of_map_to_list.
    + rewrite decide_False; [done|]. intros [[k v] [Hin [Hkey Hlt]]]%Exists_exists.
      apply elem_of_map_to_list in Hin. simpl in *. congruence.
  - destruct (decide _) as [_|_]; done.
Qed.

(** How one call of a history treats the entry under a key it does not
    write. *)
Lemma step_lookup_origin s (c : call payload) key item :
  no_put key [c] → gameCache (step s c) !! key = Some item →
  gameCache s !! key = Some item.
Proof.
  unfold no_put. rewrite Forall_singleton. intros Hc. destruct c; cbn [step].
  - intros H. destruct (getGameCache_store key0 now s) as [E|E];
      rewrite E in H; [done|].
    simpl in H. apply lookup_delete_Some in H. tauto.
  - simpl. rewrite lookup_insert_ne; done.
  - rewrite clearExpiredCache_lookup. destruct (gameCache s !! key); [|done].
    by case_bool_decide.
  - done.
  - done.
  - unfold removeFavorite. destruct (favorites s !! uid); [|done].
    case_bool_decide; [done|]. simpl. by destruct (map_get uid (users s)).
Qed.

Lemma step_lookup_live s (c : call payload) key item now :
  no_put key [c] → not_after now [c] → now ≤ GameCache.timestamp item →
  gameCache s !! key = Some item → gameCache (step s c) !! key = Some item.
Proof.
  unfold no_put, not_after. rewrite !Forall_singleton. intros Hc Ht Hlive Hk.
  destruct c; cbn [step].
  - unfold getGameCache.
    destruct (decide (key0 = key)) as [->|Hne].
    + rewrite Hk. rewrite bool_decide_eq_false_2; [done|lia].
    + destruct (gameCache s !! key0); [|done].
      case_bool_decide; [|done]. simpl. by rewrite lookup_delete_ne.
  - simpl. rewrite lookup_insert_ne; done.
  - rewrite clearExpiredCache_lookup, Hk.
    rewrite bool_decide_eq_false_2; [done|lia].
  - done.
  - done.
  - unfold removeFavorite. destruct (favorites s !! uid); [|done].
    case_bool_decide; [done|]. simpl. by destruct (map_get uid (users s)).
Qed.

Lemma run_lookup_origin h s key item :
  no_put key h → gameCache (run s h) !! key = Some item →
  gameCache s !! key = Some item.
Proof.
  revert s. induction h as [|c h IH]; intros s Hh; [done|].
  apply Forall_cons in Hh as [Hc Hh]. simpl. intros H.
  apply IH in H; [|done].
  eapply step_lookup_origin; [|done]. by apply Forall_singleton.
Qed.

Lemma run_lookup_live h s key item now :
  no_put key h → not_after now h → now ≤ GameCache.timestamp item →
  gameCache s !! key = Some item → gameCache (run s h) !! key = Some item.
Proof.
  revert s. induction h as [|c h IH]; intros s Hh Ht Hlive Hk; [done|].
  apply Forall_cons in Hh as [Hc Hh]. apply Forall_cons in Ht as [Hct Ht].
  simpl. apply IH; [done..|].
  eapply step_lookup_live; [| |done..]; by apply Forall_singleton.
Qed.

Lemma run_lookup_absent h s key :
  no_put key h → gameCache s !! key = None →
  gameCache (run s h) !! key = None.
Proof.
  intros Hh Hk. destruct (gameCache (run s h) !! key) as [item|] eqn:E; [|done].
  apply run_lookup_origin in E; [congruence | done].
Qed.

(** C1, as the code has it.  A stored entry is expired when its timestamp is
    strictly below the clock: [getGameCache] then deletes it and returns
    absent.  An entry whose timestamp equals the clock is live: it is
    returned and the store is left as it was.  So a lookup right after
    [cacheGameData key data (now + ttl)] returns absent when [ttl] is
    negative and returns the entry when [ttl] is zero (or more). *)
Theorem getGameCache_lazy_expiry key now s :
  (∀ item, gameCache s !! key = Some item →
     (GameCache.timestamp item < now →
        getGameCache key now s = (None, set_gameCache (delete key) s) ∧
        gameCache (getGameCache key now s).2 !! key = None) ∧
     (now ≤ GameCache.timestamp item →
        getGameCache key now s = (Some item, s))) ∧
  (∀ data ttl,
     let put := cacheGameData key data (now + ttl) s in
     (ttl < 0 →
        (getGameCache key now put.2).1 = None ∧
        gameCache (getGameCache key now put.2).2 !! key = None) ∧
     (0 ≤ ttl → getGameCache key now put.2 = (Some put.1, put.2))).
Proof.
  split.
  - intros item Hk. split.
    + intros Hlt. rewrite (getGameCache_expired _ _ _ _ Hk Hlt).
      split; [done|]. simpl. apply lookup_delete_eq.
    + intros Hle. by apply getGameCache_live.
  - intros data ttl put.
    assert (Hk : gameCache put.2 !! key = Some put.1).
    { subst put. simpl. apply lookup_insert_eq. }
    split.
    + intros Hneg. erewrite getGameCache_expired; [| exact Hk | simpl; lia].
      split; [done|]. simpl. apply lookup_delete_eq.
    + intros Hpos. apply getGameCache_live; [done | simpl; lia].
Qed.

(** C2.  After [cacheGameData key data (now + ttl)], whatever calls follow
    that do not write [key] again: a lookup at a moment before the expiry
    timestamp (no earlier call having read a later clock) returns the entry
    that was stored, with payload [data]; a lookup at a moment after the
    expiry timestamp returns absent; and after such a lookup every later
    lookup, at any moment, returns absent as well. *)
Theorem cached_entry_lifetime key data now ttl s :
  let put := cacheGameData key data (now + ttl) s in
  let expiry := now + ttl in
  GameCache.data put.1 = data ∧
  (∀ h t, no_put key h → not_after t h → t < expiry →
     getGameCache key t (run put.2 h) = (Some put.1, run put.2 h)) ∧
  (∀ h t, no_put key h → expiry < t →
     (getGameCache key t (run put.2 h)).1 = None) ∧
  (∀ h t h' t', no_put key h → no_put key h' → expiry < t →
     (getGameCache key t'
        (run (getGameCache key t (run put.2 h)).2 h')).1 = None).
Proof.
  intros put expiry.
  assert (Hk : gameCache put.2 !! key = Some put.1).
  { subst put. simpl. apply lookup_insert_eq. }
  assert (Hexpired : ∀ h t, no_put key h → expiry < t →
            (getGameCache key t (run put.2 h)).1 = None ∧
            gameCache (getGameCache key t (run put.2 h)).2 !! key = None).
  { intros h t Hh Ht.
    destruct (gameCache (run put.2 h) !! key) as [item|] eqn:E.
    - pose proof (run_lookup_origin _ _ _ _ Hh E) as Ho.
      rewrite Hk in Ho. injection Ho as <-.
      erewrite getGameCache_expired; [| exact E | subst put expiry; simpl; lia].
      split; [done|]. simpl. apply lookup_delete_eq.
    - rewrite getGameCache_absent by done. done. }
  split; [done|]. split; [|split].
  - intros h t Hh Hna Ht. apply getGameCache_live.
    + apply (run_lookup_live h _ _ _ t); try done. subst put expiry; simpl; lia.
    + subst put expiry; simpl; lia.
  - intros h t Hh Ht. by apply Hexpired.
  - intros h t h' t' Hh Hh' Ht.
    destruct (Hexpired h t Hh Ht) as [_ Hgone].
    rewrite getGameCache_absent; [done|]. by apply run_lookup_absent.
Qed.

(** C3, as the code has it.  After [clearExpiredCache] at [now] the cache
    holds no entry whose timestamp is strictly below [now]; every entry whose
    timestamp is [now] or later is still there, unchanged; nothing is added;
    and the rest of the store is untouched. *)
Theorem clearExpiredCache_sweep now s :
  let s' := clearExpiredCache now s in
  (∀ key item, gameCache s' !! key = Some item →
     now ≤ GameCache.timestamp item ∧ gameCache s !! key = Some item) ∧
  (∀ key item, gameCache s !! key = Some item →
     now ≤ GameCache.timestamp item → gameCache s' !! key = Some item) ∧
  (∀ key item, gameCache s !! key = Some item →
     GameCache.timestamp item < now → gameCache s' !! key = None) ∧
  users s' = users s ∧ favorites s' = favorites s ∧
  currentId s' = currentId s ∧ userId s' = userId s ∧
  favoriteId s' = favoriteId s.
Proof.
  intros s'. subst s'.
  split; [|split; [|split; [|done]]].
  - intros key item H. rewrite clearExpiredCache_lookup in H.
    destruct (gameCache s !! key) as [item'|]; [|done].
    case_bool_decide; [done|]. injection H as <-. split; [lia|done].
  - intros key item H Hlive. rewrite clearExpiredCache_lookup, H.
    rewrite bool_decide_eq_false_2; [done|lia].
  - intros key item H Hold. rewrite clearExpiredCache_lookup, H.
    by rewrite bool_decide_eq_true_2.
Qed.

End CacheProperties.

(** ** Accounts and favourites *)

Section ListFacts.
Context {A : Type}.

Lemma filter_all (P : A → Prop) `{!∀ x, Decision (P x)} (l : list A) :
  (∀ x, x ∈ l → P x) → filter P l = l.
Proof.
  induction l as [|x l IH]; intros Hl; [done|].
  rewrite filter_cons_True by (apply Hl; left).
  f_equal. apply IH. intros y Hy. apply Hl. by right.
Qed.

Lemma filter_none (P : A → Prop) `{!∀ x, Decision (P x)} (l : list A) :
  (∀ x, x ∈ l → ¬ P x) → filter P l = [].
Proof.
  induction l as [|x l IH]; intros Hl; [done|].
  rewrite filter_cons_False by (apply Hl; left).
  apply IH. intros y Hy. apply Hl. by right.
Qed.

Lemma filter_same_length (P : A → Prop) `{!∀ x, Decision (P x)} (l : list A) :
  length (filter P l) = length l → ∀ x, x ∈ l → P x.
Proof.
  induction l as [|x l IH]; intros Hlen y Hy; [by apply elem_of_nil in Hy|].
  destruct (decide (P x)) as [Hx|Hx].
  - rewrite filter_cons_True in Hlen by done. simpl in Hlen.
    apply elem_of_cons in Hy as [->|Hy]; [done|]. apply IH; [lia|done].
  - rewrite filter_cons_False in Hlen by done. simpl in Hlen.
    pose proof (length_filter P l). lia.
Qed.

Lemma StronglySorted_snoc (l : list Z) (x : Z) :
  StronglySorted Z.lt l → Forall (λ y, y < x) l →
  StronglySorted Z.lt (l ++ [x]).
Proof.
  induction 1 as [|y l Hl IH Hy]; intros Hx; simpl.
  - repeat constructor.
  - apply Forall_cons in Hx as [Hyx Hx]. constructor; [by apply IH|].
    apply Forall_app. split; [done|]. by repeat constructor.
Qed.

End ListFacts.

Lemma filter_fmap_gameId (g : Z) (l : list Favorite.t) :
  filter (λ id, id ≠ g) (Favorite.gameId <$> l) =
  Favorite.gameId <$> filter (λ fav, Favorite.gameId fav ≠ g) l.
Proof.
  induction l as [|f l IH]; [done|]. rewrite fmap_cons.
  destruct (decide (Favorite.gameId f = g)) as [E|E].
  - rewrite !filter_cons_False by (intros H; by apply H). done.
  - rewrite !filter_cons_True by done. rewrite fmap_cons. by f_equal.
Qed.

Section AccountProperties.
Context {payload : Type}.
Implicit Types (s : MemStorage payload) (h : list (call payload)).
Implicit Types (uid g : Z) (user : User.t).

Lemma getUserById_write_user (m : list (Z * User.t)) key user :
  map_get key (write_user key user m) = Some user.
Proof.
  unfold write_user. destruct (decide (User.id user = key)) as [->|Hne].
  - apply map_get_set_eq.
  - rewrite map_get_set_ne by done. apply map_get_set_eq.
Qed.

Lemma write_user_other (m : list (Z * User.t)) key user k :
  User.id user = key → k ≠ key →
  map_get k (write_user key user m) = map_get k m.
Proof.
  intros Hid Hne. unfold write_user. rewrite Hid.
  rewrite !map_get_set_ne; done.
Qed.

Lemma write_user_keys (m : list (Z * User.t)) key user :
  User.id user = key → is_Some (map_get key m) →
  (write_user key user m).*1 = m.*1.
Proof.
  intros Hid Hk. unfold write_user. rewrite Hid.
  rewrite map_set_keys; [by apply map_set_keys|].
  rewrite map_get_set_eq. by eexists.
Qed.

Lemma users_wf_id s uid user :
  users_wf s → getUserById uid s = Some user →
  User.id user = uid ∧ uid < userId s.
Proof.
  intros [Hall _] Hget. apply map_get_Some in Hget.
  rewrite Forall_forall in Hall. apply (Hall _ Hget).
Qed.

Lemma users_wf_fresh s : users_wf s → userId s ∉ (users s).*1.
Proof.
  intros [Hall _] Hin. apply list_elem_of_fmap in Hin as [[k u] [Hk Hin]].
  rewrite Forall_forall in Hall. apply Hall in Hin. simpl in *. lia.
Qed.

(** What [createUser] does to the map of users. *)
Lemma createUser_users s userData hashed date :
  users_wf s →
  users (createUser userData hashed date s).2 =
    users s ++ [(userId s, (createUser userData hashed date s).1)].
Proof.
  intros Hwf. simpl. apply map_set_fresh. by apply users_wf_fresh.
Qed.

Lemma users_wf_write s key user s' :
  users_wf s → is_Some (map_get key (users s)) → User.id user = key →
  users s' = write_user key user (users s) → userId s' = userId s →
  users_wf s'.
Proof.
  intros [Hall Hsort] Hk Hid Hu Hc. unfold users_wf. rewrite Hu, Hc. split.
  - assert (key < userId s) as Hlt.
    { destruct Hk as [u Hu']. apply map_get_Some in Hu'.
      rewrite Forall_forall in Hall. apply Hall in Hu'. simpl in Hu'. lia. }
    unfold write_user. rewrite Hid.
    apply map_set_Forall; [simpl; lia|]. apply map_set_Forall; [simpl; lia|done].
  - rewrite write_user_keys; done.
Qed.

Lemma step_users_wf s (c : call payload) : users_wf s → users_wf (step s c).
Proof.
  intros Hwf. destruct c; cbn [step].
  - destruct (getGameCache_store key now s) as [-> | ->]; done.
  - done.
  - done.
  - pose proof (users_wf_fresh s Hwf) as Hfresh.
    destruct Hwf as [Hall Hsort]. unfold users_wf. simpl.
    rewrite map_set_fresh by done. split.
    + apply Forall_app. split.
      * eapply Forall_impl; [exact Hall|]. simpl. intros [k u]; simpl. lia.
      * constructor; [simpl; lia | constructor].
    + rewrite fmap_app. apply StronglySorted_snoc; [done|].
      rewrite Forall_fmap. eapply Forall_impl; [exact Hall|].
      intros [k u]; simpl. lia.
  - unfold addFavorite. cbn [snd].
    destruct (map_get (InsertFavorite.userId favoriteData) (users s))
      as [user|] eqn:Hu; [|done].
    eapply (users_wf_write s); [done | by rewrite Hu | | done | done].
    simpl. by eapply users_wf_id.
  - unfold removeFavorite. destruct (favorites s !! uid); [|done].
    case_bool_decide; [done|]. cbn [set_favorites users].
    destruct (map_get uid (users s)) as [user|] eqn:Hu; [|done]. cbn [snd].
    eapply (users_wf_write s); [done | by rewrite Hu | | done | done].
    simpl. by eapply users_wf_id.
Qed.

Lemma new_users_wf : users_wf (new_MemStorage (payload:=payload)).
Proof. split; constructor. Qed.

Lemma run_users_wf h s : users_wf s → users_wf (run s h).
Proof.
  revert s. induction h as [|c h IH]; intros s Hwf; [done|].
  simpl. apply IH. by apply step_users_wf.
Qed.

Lemma getUserFavorites_addFavorite s favoriteData date uid :
  getUserFavorites uid (addFavorite favoriteData date s).2 =
    if decide (uid = InsertFavorite.userId favoriteData)
    then getUserFavorites uid s ++ [(addFavorite favoriteData date s).1]
    else getUserFavorites uid s.
Proof.
  unfold getUserFavorites, addFavorite. cbn [snd fst favorites].
  destruct (decide (uid = _)) as [->|Hne].
  - by rewrite lookup_insert_eq.
  - by rewrite lookup_insert_ne.
Qed.

Lemma favorites_removeFavorite s uid g :
  favorites (removeFavorite uid g s).2 =
    match favorites s !! uid with
    | Some l =>
        let l' := filter (λ fav, Favorite.gameId fav ≠ g) l in
        if bool_decide (length l' = length l) then favorites s
        else <[uid := l']> (favorites s)
    | None => favorites s
    end.
Proof.
  unfold removeFavorite. destruct (favorites s !! uid) as [l|]; [|done].
  simpl. case_bool_decide; [done|]. by destruct (map_get uid (users s)).
Qed.

(** [removeFavorite] keeps exactly the favourites with another game id. *)
Lemma getUserFavorites_removeFavorite s uid g uid' :
  getUserFavorites uid' (removeFavorite uid g s).2 =
    if decide (uid' = uid)
    then filter (λ fav, Favorite.gameId fav ≠ g) (getUserFavorites uid s)
    else getUserFavorites uid' s.
Proof.
  unfold getUserFavorites. rewrite favorites_removeFavorite.
  destruct (favorites s !! uid) as [l|] eqn:Hl; simpl.
  - case_bool_decide as Hlen.
    + destruct (decide (uid' = uid)) as [->|Hne]; [|done].
      rewrite Hl. simpl. rewrite filter_all; [done|].
      exact (filter_same_length _ l Hlen).
    + destruct (decide (uid' = uid)) as [->|Hne].
      * by rewrite lookup_insert_eq.
      * by rewrite lookup_insert_ne.
  - destruct (decide (uid' = uid)) as [->|Hne]; [|done]. by rewrite Hl.
Qed.

Lemma removeFavorite_result s uid g :
  (removeFavorite uid g s).1 = false ↔
  ∀ fav, fav ∈ getUserFavorites uid s → Favorite.gameId fav ≠ g.
Proof.
  unfold getUserFavorites, removeFavorite.
  destruct (favorites s !! uid) as [l|] eqn:Hl; simpl.
  - case_bool_decide as Hlen.
    + split; [|done]. intros _. exact (filter_same_length _ l Hlen).
    + split.
      * by destruct (map_get uid (users s)).
      * intros Hall. exfalso. apply Hlen. f_equal. by apply filter_all.
  - split; [|done]. intros _ fav Hin. by apply elem_of_nil in Hin.
Qed.

Lemma removeFavorite_noop s uid g :
  (removeFavorite uid g s).1 = false → (removeFavorite uid g s).2 = s.
Proof.
  unfold removeFavorite. destruct (favorites s !! uid) as [l|]; [|done].
  case_bool_decide; [done|]. by destruct (map_get uid _).
Qed.

Lemma getUserById_removeFavorite s uid g user :
  (removeFavorite uid g s).1 = true → getUserById uid s = Some user →
  getUserById uid (removeFavorite uid g s).2 =
    Some (User.set_favoriteGames
            (filter (λ id, id ≠ g) (User.favoriteGames user)) user).
Proof.
  unfold getUserById, removeFavorite.
  destruct (favorites s !! uid) as [l|]; [|done].
  case_bool_decide; [done|]. cbn [set_favorites users].
  intros _ ->. cbn [snd set_users users]. apply getUserById_write_user.
Qed.

(** C7.  Let user [u] be stored and have no favourite with game id [g].
    After [addFavorite(u, g, name, null)] the list returned by
    [getUserFavorites(u)] holds exactly one entry with game id [g], the one
    just created.  [removeFavorite(u, g)] then returns true and leaves a list
    with no entry for [g] (the list from before the addition); a second
    [removeFavorite(u, g)] returns false and changes nothing. *)
Theorem favorites_round_trip s u g name date user :
  getUserById u s = Some user →
  (∀ fav, fav ∈ getUserFavorites u s → Favorite.gameId fav ≠ g) →
  let add := addFavorite (InsertFavorite.mk u g name None) date s in
  let rm1 := removeFavorite u g add.2 in
  let rm2 := removeFavorite u g rm1.2 in
  Favorite.gameId add.1 = g ∧
  filter (λ fav, Favorite.gameId fav = g) (getUserFavorites u add.2) = [add.1] ∧
  rm1.1 = true ∧
  (∀ fav, fav ∈ getUserFavorites u rm1.2 → Favorite.gameId fav ≠ g) ∧
  getUserFavorites u rm1.2 = getUserFavorites u s ∧
  rm2.1 = false ∧ rm2.2 = rm1.2.
Proof.
  intros Huser Hnone add rm1 rm2.
  assert (Hadd : getUserFavorites u add.2 = getUserFavorites u s ++ [add.1]).
  { subst add. rewrite getUserFavorites_addFavorite. by rewrite decide_True. }
  assert (Hg : Favorite.gameId add.1 = g) by done.
  assert (Hrm1 : getUserFavorites u rm1.2 = getUserFavorites u s).
  { subst rm1. rewrite getUserFavorites_removeFavorite, decide_True by done.
    rewrite Hadd, filter_app. rewrite filter_all by done.
    rewrite filter_none; [by rewrite app_nil_r|].
    intros x ->%list_elem_of_singleton Hx. by apply Hx. }
  assert (Hrm2 : rm2.1 = false).
  { subst rm2. apply removeFavorite_result. by rewrite Hrm1. }
  split; [done|]. split; [|split; [|split; [|split; [done|split; [done|]]]]].
  - rewrite Hadd, filter_app. rewrite filter_none.
    + by rewrite filter_cons_True.
    + intros x Hx Hgx. by apply (Hnone x).
  - destruct rm1.1 eqn:E; [done|]. exfalso.
    subst rm1. rewrite removeFavorite_result in E.
    apply (E add.1); [|done]. rewrite Hadd. apply elem_of_app. right. left.
  - by rewrite Hrm1.
  - subst rm2. by apply removeFavorite_noop.
Qed.

(** C8, as the code has it.  [removeFavorite(userId, gameId)] removes every
    favourite of that user with that game id (all of them when there are
    several), and leaves the lists of other users alone.  It returns false
    exactly when no favourite matched, and then the store is unchanged; when
    it returns true and the user is stored, every occurrence of the game id
    is removed from the user's [favoriteGames] as well. *)
Theorem removeFavorite_removes_every_match s uid g :
  let rm := removeFavorite uid g s in
  getUserFavorites uid rm.2 =
    filter (λ fav, Favorite.gameId fav ≠ g) (getUserFavorites uid s) ∧
  (∀ uid', uid' ≠ uid → getUserFavorites uid' rm.2 = getUserFavorites uid' s) ∧
  (rm.1 = false ↔
     ∀ fav, fav ∈ getUserFavorites uid s → Favorite.gameId fav ≠ g) ∧
  (rm.1 = false → rm.2 = s) ∧
  (rm.1 = true → ∀ user, getUserById uid s = Some user →
     getUserById uid rm.2 =
       Some (User.set_favoriteGames
               (filter (λ id, id ≠ g) (User.favoriteGames user)) user)).
Proof.
  intros rm. subst rm. split; [|split; [|split; [|split]]].
  - by rewrite getUserFavorites_removeFavorite, decide_True.
  - intros uid' Hne. by rewrite getUserFavorites_removeFavorite, decide_False.
  - apply removeFavorite_result.
  - apply removeFavorite_noop.
  - intros Hr user Hu. by apply getUserById_removeFavorite.
Qed.

(** *** The account invariants along a history *)

Lemma map_get_elem (m : list (Z * User.t)) k user :
  StronglySorted Z.lt m.*1 → (k, user) ∈ m → map_get k m = Some user.
Proof.
  induction m as [|[k' u'] m IH]; intros Hs Hin.
  - by apply elem_of_nil in Hin.
  - rewrite fmap_cons in Hs. apply StronglySorted_inv in Hs as [Hs Hall].
    simpl. apply elem_of_cons in Hin as [[= -> ->]|Hin].
    + by rewrite decide_True.
    + rewrite decide_False; [by apply IH|]. intros ->.
      rewrite Forall_forall in Hall.
      assert (k' < k') as Hlt; [|lia].
      apply Hall. apply list_elem_of_fmap. by exists (k', user).
Qed.

Lemma getUserById_createUser s userData hashed date k :
  getUserById k (createUser userData hashed date s).2 =
    if decide (k = userId s) then Some (createUser userData hashed date s).1
    else getUserById k s.
Proof.
  unfold getUserById. simpl. destruct (decide (k = userId s)) as [->|Hne].
  - apply map_get_set_eq.
  - by apply map_get_set_ne.
Qed.

Lemma getUserById_addFavorite s favoriteData date k :
  users_wf s →
  getUserById k (addFavorite favoriteData date s).2 =
    match getUserById (InsertFavorite.userId favoriteData) s with
    | Some user =>
        if decide (k = InsertFavorite.userId favoriteData)
        then Some (User.set_favoriteGames
                     (User.favoriteGames user ++
                        [InsertFavorite.gameId favoriteData]) user)
        else getUserById k s
    | None => getUserById k s
    end.
Proof.
  intros Hwf. unfold getUserById, addFavorite. cbn [snd users].
  destruct (map_get (InsertFavorite.userId favoriteData) (users s))
    as [user|] eqn:Hu; [|done].
  destruct (decide (k = _)) as [->|Hne].
  - apply getUserById_write_user.
  - apply write_user_other; [|done]. simpl. by eapply users_wf_id.
Qed.

Lemma getUserById_removeFavorite_other s uid g k :
  users_wf s → k ≠ uid →
  getUserById k (removeFavorite uid g s).2 = getUserById k s.
Proof.
  intros Hwf Hne. unfold getUserById, removeFavorite.
  destruct (favorites s !! uid) as [l|]; [|done].
  case_bool_decide; [done|]. cbn [set_favorites users].
  destruct (map_get uid (users s)) as [user|] eqn:Hu; [|done].
  cbn [snd set_users users]. apply write_user_other; [|done].
  simpl. by eapply users_wf_id.
Qed.

Lemma step_account_invariants s (c : call payload) :
  users_wf s → no_orphans s → mirrored s → adds_known s [c] →
  no_orphans (step s c) ∧ mirrored (step s c).
Proof.
  intros Hwf Hno Hmir [Hknown _].
  destruct c as [key now|key data ts|now|userData hashed date|fd date|uid g].
  - assert (users (step s (GetGameCache key now)) = users s ∧
            favorites (step s (GetGameCache key now)) = favorites s) as [Hu Hf].
    { cbn [step]. destruct (getGameCache_store key now s) as [-> | ->]; done. }
    unfold no_orphans, mirrored, getUserById, getUserFavorites.
    rewrite Hu, Hf. done.
  - done.
  - done.
  - cbn [step]. split.
    + intros uid Hfav. rewrite getUserById_createUser.
      destruct (decide (uid = userId s)); [by eexists|]. by apply Hno.
    + intros uid user. rewrite getUserById_createUser.
      destruct (decide (uid = userId s)) as [->|Hne].
      * intros [= <-]. unfold getUserFavorites. simpl.
        destruct (favorites s !! userId s) as [l|] eqn:Hl; [|done].
        destruct (Hno (userId s)) as [u Hu]; [by eexists|].
        apply (users_wf_id _ _ _ Hwf) in Hu. lia.
      * apply Hmir.
  - cbn [step]. destruct Hknown as [user Huser]. split.
    + intros uid Hfav. rewrite getUserById_addFavorite, Huser by done.
      destruct (decide (uid = _)) as [->|Hne]; [by eexists|].
      apply Hno. unfold addFavorite in Hfav. cbn [snd favorites] in Hfav.
      by rewrite lookup_insert_ne in Hfav.
    + intros uid u. rewrite getUserById_addFavorite, Huser by done.
      rewrite getUserFavorites_addFavorite.
      destruct (decide (uid = _)) as [->|Hne]; [|apply Hmir].
      intros [= <-]. simpl. rewrite fmap_app. f_equal. by apply Hmir.
  - cbn [step]. destruct (removeFavorite uid g s).1 eqn:Hr.
    + split.
      * intros k Hfav. destruct (decide (k = uid)) as [->|Hne].
        -- assert (is_Some (getUserById uid s)) as [user Hu].
           { apply Hno. unfold removeFavorite in Hr.
             destruct (favorites s !! uid); [by eexists|done]. }
           rewrite (getUserById_removeFavorite _ _ _ _ Hr Hu). by eexists.
        -- rewrite getUserById_removeFavorite_other by done. apply Hno.
           rewrite favorites_removeFavorite in Hfav.
           destruct (favorites s !! uid) as [l|]; [|done]. simpl in Hfav.
           case_bool_decide; [done|]. by rewrite lookup_insert_ne in Hfav.
      * intros k u. rewrite getUserFavorites_removeFavorite.
        destruct (decide (k = uid)) as [->|Hne].
        -- assert (is_Some (getUserById uid s)) as [user Hu].
           { apply Hno. unfold removeFavorite in Hr.
             destruct (favorites s !! uid); [by eexists|done]. }
           rewrite (getUserById_removeFavorite _ _ _ _ Hr Hu).
           intros [= <-]. simpl. rewrite (Hmir _ _ Hu).
           apply filter_fmap_gameId.
        -- rewrite getUserById_removeFavorite_other by done. apply Hmir.
    + by rewrite removeFavorite_noop.
Qed.

Lemma run_account_invariants h s :
  users_wf s → no_orphans s → mirrored s → adds_known s h →
  no_orphans (run s h) ∧ mirrored (run s h).
Proof.
  revert s. induction h as [|c h IH]; intros s Hwf Hno Hmir Hk; [done|].
  destruct Hk as [Hc Hk]. simpl.
  destruct (step_account_invariants s c) as [Hno' Hmir']; try done.
  apply IH; try done. by apply step_users_wf.
Qed.

(** C9.  Take any history of [createUser], [addFavorite] and
    [removeFavorite] calls (cache calls may be interleaved) that starts from
    the empty store and in which every [addFavorite] names a user stored at
    that moment.  In the store it reaches, the [favoriteGames] of every stored
    user is, element for element and in order, the list of the [gameId]
    fields of the favourites [getUserFavorites] returns for that user. *)
Theorem favoriteGames_mirror h :
  adds_known new_MemStorage h →
  let s := run (new_MemStorage (payload:=payload)) h in
  ∀ user, user ∈ map_values (users s) →
    User.favoriteGames user =
      Favorite.gameId <$> getUserFavorites (User.id user) s.
Proof.
  intros Hk s user Hin.
  pose proof (run_users_wf h _ new_users_wf) as Hwf.
  assert (no_orphans (new_MemStorage (payload:=payload))) as Hno.
  { intros uid [l Hl]. simpl in Hl. by rewrite lookup_empty in Hl. }
  assert (mirrored (new_MemStorage (payload:=payload))) as Hmir0.
  { by intros uid u Hu. }
  destruct (run_account_invariants h _ new_users_wf Hno Hmir0 Hk) as [_ Hmir].
  apply list_elem_of_fmap in Hin as [[k u] [-> Hin]]. simpl.
  destruct Hwf as [Hall Hsort]. fold s in Hall, Hsort.
  assert (User.id u = k) as ->.
  { rewrite Forall_forall in Hall. by apply Hall in Hin as [? _]. }
  apply Hmir. unfold getUserById. by apply map_get_elem.
Qed.

(** *** Identifiers and the lookup by e-mail *)

Lemma step_userId s (c : call payload) :
  userId (step s c) = userId s + (if is_CreateUser c then 1 else 0).
Proof.
  destruct c; cbn [step is_CreateUser]; try (simpl; lia).
  - destruct (getGameCache_store key now s) as [-> | ->]; simpl; lia.
  - unfold removeFavorite. destruct (favorites s !! uid); [|simpl; lia].
    case_bool_decide; [simpl; lia|].
    destruct (map_get uid _); simpl; lia.
Qed.

Lemma run_userId h s : userId (run s h) = userId s + Z.of_nat (creations h).
Proof.
  unfold creations. revert s. induction h as [|c h IH]; intros s; [simpl; lia|].
  simpl. rewrite IH, step_userId.
  destruct (is_CreateUser c); simpl; lia.
Qed.

Lemma users_wf_ids s : users_wf s → User.id <$> map_values (users s) = (users s).*1.
Proof.
  intros [Hall _]. unfold map_values.
  induction Hall as [|[k u] m [Hid _] _ IH]; [done|].
  rewrite !fmap_cons, IH. simpl in *. by rewrite Hid.
Qed.

(** [Array.prototype.find] on a list in increasing id order returns the
    match with the least id. *)
Lemma find_least (f : User.t → bool) (l : list User.t) :
  StronglySorted Z.lt (User.id <$> l) →
  match List.find f l with
  | Some user =>
      f user = true ∧ user ∈ l ∧
      ∀ user', user' ∈ l → f user' = true → User.id user ≤ User.id user'
  | None => ∀ user', user' ∈ l → f user' = false
  end.
Proof.
  induction l as [|u l IH]; intros Hs; simpl.
  - intros u' Hin. by apply elem_of_nil in Hin.
  - rewrite fmap_cons in Hs. apply StronglySorted_inv in Hs as [Hs Hall].
    destruct (f u) eqn:Hfu.
    + split; [done|]. split; [left|].
      intros u' Hin _. apply elem_of_cons in Hin as [->|Hin]; [lia|].
      rewrite Forall_forall in Hall.
      assert (User.id u < User.id u'); [|lia].
      apply Hall. apply list_elem_of_fmap. by exists u'.
    + specialize (IH Hs). destruct (List.find f l) as [user|].
      * destruct IH as (Hf & Hin & Hleast). split; [done|]. split; [by right|].
        intros u' Hin' Hf'. apply elem_of_cons in Hin' as [->|Hin'].
        -- congruence.
        -- by apply Hleast.
      * intros u' Hin'. apply elem_of_cons in Hin' as [->|Hin']; [done|].
        by apply IH.
Qed.

(** C10.  In the store reached by any history of calls, [createUser] always
    returns: the new user gets the current counter as id, which is one more
    than the number of users created so far and above the id of every stored
    user; the user is appended to the map whatever e-mail and user name it
    carries (no uniqueness check), and the counter moves on by one.
    [getUserByEmail] returns, among the stored users with that e-mail, the
    one with the least id, and returns absent only when there is none. *)
Theorem createUser_fresh_id_and_first_by_email h userData hashed date :
  let s := run (new_MemStorage (payload:=payload)) h in
  let created := createUser userData hashed date s in
  User.id created.1 = 1 + Z.of_nat (creations h) ∧
  (∀ user, user ∈ map_values (users s) → User.id user < User.id created.1) ∧
  User.email created.1 = InsertUser.email userData ∧
  User.username created.1 = InsertUser.username userData ∧
  users created.2 = users s ++ [(User.id created.1, created.1)] ∧
  getUserById (User.id created.1) created.2 = Some created.1 ∧
  userId created.2 = User.id created.1 + 1 ∧
  (∀ email,
     match getUserByEmail email s with
     | Some user =>
         User.email user = email ∧ user ∈ map_values (users s) ∧
         ∀ user', user' ∈ map_values (users s) → User.email user' = email →
                  User.id user ≤ User.id user'
     | None =>
         ∀ user', user' ∈ map_values (users s) → User.email user' ≠ email
     end).
Proof.
  intros s created.
  pose proof (run_users_wf h _ new_users_wf) as Hwf. fold s in Hwf.
  assert (Hid : User.id created.1 = userId s) by done.
  split; [|split; [|split; [done|split; [done|split; [|split; [|split]]]]]].
  - rewrite Hid. subst s. by rewrite run_userId.
  - intros user Hin. rewrite Hid.
    apply list_elem_of_fmap in Hin as [[k u] [-> Hin]].
    destruct Hwf as [Hall _]. rewrite Forall_forall in Hall.
    apply Hall in Hin. simpl in *. lia.
  - rewrite Hid. subst created. by apply createUser_users.
  - subst created. rewrite getUserById_createUser. by rewrite decide_True.
  - by rewrite Hid.
  - intros email. unfold getUserByEmail.
    pose proof (find_least (λ user, bool_decide (User.email user = email))
                  (map_values (users s))) as Hfind.
    rewrite users_wf_ids in Hfind by done. destruct Hwf as [_ Hsort].
    specialize (Hfind Hsort).
    destruct (List.find _ _) as [user|].
    + destruct Hfind as (Hf & Hin & Hleast). apply bool_decide_eq_true in Hf.
      split; [done|]. split; [done|]. intros user' Hin' He.
      apply Hleast; [done|]. by apply bool_decide_eq_true.
    + intros user' Hin'. apply Hfind in Hin'.
      by apply bool_decide_eq_false in Hin'.
Qed.

End AccountProperties.

(** ** The cached handlers *)

Section HandlerProperties.
Context {payload : Type} (RAWG_API_KEY : jsstring).
Implicit Types (s : MemStorage payload) (r : cached_request).
Implicit Types (axios_get : upstream_call → reply payload).

(** The three handlers share their shape; [by_handler] opens the one that
    serves [r] and names the key it looks up. *)
Ltac by_handler r Hkey :=
  destruct r as [?query|?id|?query]; simpl in Hkey;
  [ injection Hkey as <-; unfold handle, games_handler
  | injection Hkey as <-; unfold handle, details_handler
  | unfold handle, search_handler;
    destruct (_ !! js "query") as [[[|? ?]| |]|]; try done;
    injection Hkey as <- ].

(** A hit answers from the cache and calls nobody. *)
Lemma handle_hit r key axios_get t_lookup t_store s cached :
  cacheKey_of r = Some key →
  (getGameCache key t_lookup s).1 = Some cached →
  handle RAWG_API_KEY r axios_get t_lookup t_store s =
    mkOutcome (mkResponse 200 (Data (GameCache.data cached))) []
              (getGameCache key t_lookup s).2.
Proof.
  intros Hkey Hhit.
  by_handler r Hkey;
    destruct (getGameCache _ _ _) as [c s1]; simpl in *; by subst.
Qed.

(** A miss makes one upstream call. *)
Lemma handle_miss r key s t_lookup axios_get t_store :
  cacheKey_of r = Some key →
  (getGameCache key t_lookup s).1 = None →
  ∃ c, fetched (handle RAWG_API_KEY r axios_get t_lookup t_store s) = [c].
Proof.
  intros Hkey Hmiss.
  by_handler r Hkey;
    destruct (getGameCache _ _ _) as [c s1]; simpl in Hmiss; subst c;
    eexists; destruct (axios_get _); reflexivity.
Qed.

(** The call a miss makes depends on the request only, not on the store, the
    clock or the reply. *)
Lemma handle_miss_call r key s s' t t' axios_get axios_get' t_store t_store' :
  cacheKey_of r = Some key →
  (getGameCache key t s).1 = None → (getGameCache key t' s').1 = None →
  fetched (handle RAWG_API_KEY r axios_get' t' t_store' s') =
  fetched (handle RAWG_API_KEY r axios_get t t_store s).
Proof.
  intros Hkey Hmiss Hmiss'.
  by_handler r Hkey;
    destruct (getGameCache _ t s) as [c s1]; simpl in Hmiss; subst c;
    destruct (getGameCache _ t' s') as [c s1']; simpl in Hmiss'; subst c;
    destruct (axios_get _), (axios_get' _); reflexivity.
Qed.

(** A miss whose upstream call is rejected. *)
Lemma handle_rejected r key axios_get t_lookup t_store s :
  cacheKey_of r = Some key →
  (getGameCache key t_lookup s).1 = None →
  (∀ c, c ∈ fetched (handle RAWG_API_KEY r axios_get t_lookup t_store s) →
        axios_get c = Rejected) →
  ∃ m, sent (handle RAWG_API_KEY r axios_get t_lookup t_store s) =
         mkResponse 500 (Message m) ∧
       store (handle RAWG_API_KEY r axios_get t_lookup t_store s) =
         (getGameCache key t_lookup s).2.
Proof.
  intros Hkey Hmiss.
  by_handler r Hkey;
    destruct (getGameCache _ _ _) as [c s1]; simpl in Hmiss; subst c;
    (destruct (axios_get _) as [d|] eqn:E; cbn [fetched sent store];
     [ intros H; specialize (H _ (list_elem_of_here _ _)); congruence
     | intros _; by eexists ]).
Qed.

(** A miss whose upstream call resolves stores the payload under the
    handler's key, with the handler's constant added to the clock. *)
Lemma handle_resolved r key axios_get t_lookup t_store s :
  cacheKey_of r = Some key →
  (getGameCache key t_lookup s).1 = None →
  (∀ c, c ∈ fetched (handle RAWG_API_KEY r axios_get t_lookup t_store s) →
        ∃ data, axios_get c = Resolved data) →
  ∃ data,
    sent (handle RAWG_API_KEY r axios_get t_lookup t_store s) =
      mkResponse 200 (Data data) ∧
    store (handle RAWG_API_KEY r axios_get t_lookup t_store s) =
      (cacheGameData key data
         (t_store + match r with
                    | ListingRequest _ => 3600
                    | DetailsRequest _ => 86400
                    | SearchRequest _ => 1800
                    end)
         (getGameCache key t_lookup s).2).2.
Proof.
  intros Hkey Hmiss.
  by_handler r Hkey;
    destruct (getGameCache _ _ _) as [c s1]; simpl in Hmiss; subst c;
    (destruct (axios_get _) as [d|] eqn:E; cbn [fetched sent store];
     [ intros _; by eexists
     | intros H; destruct (H _ (list_elem_of_here _ _)) as [d Hd];
       congruence ]).
Qed.

Lemma getGameCache_miss_store key now s :
  (getGameCache key now s).1 = None →
  gameCache (getGameCache key now s).2 = delete key (gameCache s) ∧
  gameCache (getGameCache key now s).2 !! key = None ∧
  currentId (getGameCache key now s).2 = currentId s ∧
  (gameCache s !! key = None → (getGameCache key now s).2 = s).
Proof.
  unfold getGameCache. destruct (gameCache s !! key) as [item|] eqn:Hk.
  - case_bool_decide; [|done]. simpl. intros _.
    split; [done|]. split; [apply lookup_delete_eq|]. done.
  - simpl. intros _. split; [by rewrite delete_id|]. done.
Qed.

(** C4, as the code has it.  For each of the three cached handlers: when the
    lookup of the handler's key misses and the upstream call it then makes is
    rejected, the handler answers 500 with a message, and writes no cache
    entry: the store is the one the lookup left, in which the key is absent.
    That store is the store from before the request when no entry was stored
    under the key; when the miss came from an expired entry, the lookup has
    deleted that entry, and nothing else has changed.  An identical request
    that follows, at any moment and whatever upstream then answers, makes the
    same upstream call again. *)
Theorem failed_fetch_writes_no_entry r key axios_get t_lookup t_store s :
  let o := handle RAWG_API_KEY r axios_get t_lookup t_store s in
  cacheKey_of r = Some key →
  (getGameCache key t_lookup s).1 = None →
  (∀ c, c ∈ fetched o → axios_get c = Rejected) →
  (∃ m, sent o = mkResponse 500 (Message m)) ∧
  (∃ c, fetched o = [c]) ∧
  store o = (getGameCache key t_lookup s).2 ∧
  gameCache (store o) !! key = None ∧
  gameCache (store o) = delete key (gameCache s) ∧
  currentId (store o) = currentId s ∧
  (gameCache s !! key = None → store o = s) ∧
  (∀ axios_get' t_lookup' t_store',
     fetched (handle RAWG_API_KEY r axios_get' t_lookup' t_store' (store o))
     = fetched o).
Proof.
  intros o Hkey Hmiss Hfail.
  destruct (handle_rejected r key axios_get t_lookup t_store s Hkey Hmiss Hfail)
    as (m & Hsent & Hstore).
  destruct (getGameCache_miss_store key t_lookup s Hmiss)
    as (Hdel & Hnone & Hid & Hsame).
  fold o in Hsent, Hstore.
  split; [by exists m|]. split.
  { apply (handle_miss r key); done. }
  rewrite Hstore. split; [done|]. split; [done|]. split; [done|].
  split; [done|]. split; [done|].
  intros axios_get' t_lookup' t_store'. subst o.
  apply (handle_miss_call r key); [done..|].
  by rewrite getGameCache_absent.
Qed.

(** The detail handler serves [GET /api/games/:id] with key ["/games/" + id]
    and 86400 seconds; the listing handler serves [GET /api/games] with 3600
    seconds. *)
Lemma serve_details id query axios_get t_lookup t_store s :
  id ≠ [] →
  serve RAWG_API_KEY GET [js "api"; js "games"; id] query axios_get
        t_lookup t_store s =
    Some (handle RAWG_API_KEY (DetailsRequest id) axios_get t_lookup t_store s).
Proof.
  intros Hid. unfold serve, dispatch. simpl.
  destruct id as [|c id]; [done|]. reflexivity.
Qed.

Lemma serve_listing query axios_get t_lookup t_store s :
  serve RAWG_API_KEY GET [js "api"; js "games"] query axios_get
        t_lookup t_store s =
    Some (handle RAWG_API_KEY (ListingRequest query) axios_get
            t_lookup t_store s).
Proof. reflexivity. Qed.

(** A request for [/api/games/search] reaches the detail handler, with
    ["search"] for id. *)
Lemma serve_search query axios_get t_lookup t_store s :
  serve RAWG_API_KEY GET [js "api"; js "games"; js "search"] query axios_get
        t_lookup t_store s =
    Some (handle RAWG_API_KEY (DetailsRequest (js "search")) axios_get
            t_lookup t_store s).
Proof. reflexivity. Qed.

End HandlerProperties.

(** ** The listing key *)

Section JsonProperties.
Local Open Scope N_scope.
Implicit Types (s r : jsstring) (c d : N) (v : qval).

Lemma unhex_hex_digit d : d < 16 → unhex (hex_digit d) = Some d.
Proof.
  intros Hd. unfold unhex, hex_digit.
  destruct (N.ltb_spec d 10) as [H10|H10].
  - assert ((48 <=? 48 + d) && (48 + d <=? 57) = true) as ->.
    { apply andb_true_intro. split; apply N.leb_le; lia. }
    f_equal. lia.
  - assert ((48 <=? 87 + d) && (87 + d <=? 57) = false) as ->.
    { apply andb_false_intro2. apply N.leb_gt. lia. }
    assert ((97 <=? 87 + d) && (87 + d <=? 102) = true) as ->.
    { apply andb_true_intro. split; apply N.leb_le; lia. }
    f_equal. lia.
Qed.

Lemma hex_digits_value c :
  c < 65536 →
  (c / 4096 mod 16) * 4096 + (c / 256 mod 16) * 256 + (c / 16 mod 16) * 16
    + c mod 16 = c.
Proof.
  intros Hc.
  assert (c / 4096 < 16) as Hhi by (apply N.Div0.div_lt_upper_bound; lia).
  replace (c / 4096) with (c / 16 / 16 / 16) in *
    by (rewrite !N.Div0.div_div; reflexivity).
  replace (c / 256) with (c / 16 / 16)
    by (rewrite !N.Div0.div_div; reflexivity).
  pose proof (N.div_mod c 16 ltac:(lia)) as H0.
  pose proof (N.div_mod (c / 16) 16 ltac:(lia)) as H1.
  pose proof (N.div_mod (c / 16 / 16) 16 ltac:(lia)) as H2.
  rewrite (N.mod_small (c / 16 / 16 / 16) 16) by done. lia.
Qed.

Lemma read_units_u h3 h2 h1 h0 r :
  read_units (BACKSLASH :: 117 :: h3 :: h2 :: h1 :: h0 :: r) =
    match unhex h3, unhex h2, unhex h1, unhex h0, read_units r with
    | Some d3, Some d2, Some d1, Some d0, Some (u, r') =>
        Some (d3 * 4096 + d2 * 256 + d1 * 16 + d0 :: u, r')
    | _, _, _, _, _ => None
    end.
Proof. reflexivity. Qed.

Lemma read_units_UnicodeEscape c r :
  c < 65536 → read_units (UnicodeEscape c ++ r) = consumed c (read_units r).
Proof.
  intros Hc. unfold UnicodeEscape. cbn [app]. rewrite read_units_u.
  rewrite !unhex_hex_digit by (apply N.mod_lt; lia).
  rewrite hex_digits_value by done. reflexivity.
Qed.

Lemma read_units_raw c r :
  c ≠ QUOTE → c ≠ BACKSLASH →
  read_units (c :: r) = consumed c (read_units r).
Proof.
  intros Hq Hb. cbn [read_units].
  apply N.eqb_neq in Hq, Hb. rewrite Hq, Hb. reflexivity.
Qed.

Lemma surrogate_bound c :
  is_high_surrogate c || is_low_surrogate c = true → 32 <= c < 65536.
Proof.
  unfold is_high_surrogate, is_low_surrogate.
  rewrite orb_true_iff, !andb_true_iff, !N.leb_le. lia.
Qed.

Lemma read_units_escape_unit c r :
  read_units (escape_unit c ++ r) = consumed c (read_units r).
Proof.
  unfold escape_unit.
  destruct (N.eqb_spec c 8) as [->|H8]; [reflexivity|].
  destruct (N.eqb_spec c 9) as [->|H9]; [reflexivity|].
  destruct (N.eqb_spec c 10) as [->|H10]; [reflexivity|].
  destruct (N.eqb_spec c 12) as [->|H12]; [reflexivity|].
  destruct (N.eqb_spec c 13) as [->|H13]; [reflexivity|].
  destruct (N.eqb_spec c 34) as [->|H34]; [reflexivity|].
  destruct (N.eqb_spec c 92) as [->|H92]; [reflexivity|].
  destruct ((c <? 32) || is_high_surrogate c || is_low_surrogate c) eqn:E.
  - apply read_units_UnicodeEscape.
    rewrite <- orb_assoc in E. apply orb_true_iff in E as [E|E].
    + apply N.ltb_lt in E. lia.
    + apply surrogate_bound in E. lia.
  - by apply read_units_raw.
Qed.

(** Reading undoes quoting, whatever follows the closing quote. *)
Lemma read_quote_units s r :
  read_units (quote_units s ++ QUOTE :: r) = Some (s, r).
Proof.
  remember (length s) as n eqn:Hn.
  assert (length s ≤ n)%nat as Hlen by lia. clear Hn.
  revert s Hlen. induction n as [|n IH]; intros s Hlen.
  { destruct s; [reflexivity | simpl in Hlen; lia]. }
  destruct s as [|c s]; [reflexivity|]. simpl in Hlen.
  cbn [quote_units]. destruct (is_high_surrogate c) eqn:Hhi.
  - assert (32 <= c < 65536) as Hc.
    { apply surrogate_bound. by rewrite Hhi. }
    destruct s as [|d s].
    + rewrite read_units_UnicodeEscape by lia. reflexivity.
    + destruct (is_low_surrogate d) eqn:Hlo.
      * assert (32 <= d < 65536) as Hd.
        { apply surrogate_bound. rewrite Hlo. apply orb_true_r. }
        simpl in Hlen. cbn [app].
        unfold is_high_surrogate in Hhi. unfold is_low_surrogate in Hlo.
        apply andb_true_iff in Hhi as [Hhi _]. apply N.leb_le in Hhi.
        apply andb_true_iff in Hlo as [Hlo _]. apply N.leb_le in Hlo.
        rewrite read_units_raw by (unfold QUOTE, BACKSLASH; lia).
        rewrite read_units_raw by (unfold QUOTE, BACKSLASH; lia).
        rewrite IH by lia. reflexivity.
      * rewrite <- app_assoc, read_units_UnicodeEscape by lia.
        rewrite IH by lia. reflexivity.
  - rewrite <- app_assoc, read_units_escape_unit.
    rewrite IH by lia. reflexivity.
Qed.

(** A quoted string is recognised in front of any text. *)
Lemma QuoteJSONString_prefix s1 s2 r1 r2 :
  QuoteJSONString s1 ++ r1 = QuoteJSONString s2 ++ r2 → s1 = s2 ∧ r1 = r2.
Proof.
  unfold QuoteJSONString. cbn [app]. rewrite <- !app_assoc. cbn [app].
  intros [= H]. apply (f_equal read_units) in H.
  rewrite !read_quote_units in H. by injection H.
Qed.

(** The text of a query value starts with a quote, a bracket or a brace. *)
Lemma SerializeJSONValue_head v :
  ∃ c t, SerializeJSONValue v = c :: t ∧
         (c = QUOTE ∨ c = LBRACKET ∨ c = LBRACE).
Proof.
  destruct v; cbn [SerializeJSONValue]; unfold QuoteJSONString;
    eexists _, _; (split; [reflexivity|]); auto.
Qed.

Lemma join_comma_close (ms : list jsstring) close r :
  join_comma ms ++ close :: r =
    match ms with
    | [] => close :: r
    | m :: ms' => m ++ sep_tail ms' close r
    end.
Proof.
  induction ms as [|m ms IH]; [reflexivity|].
  cbn [join_comma]. destruct ms as [|m' ms]; [reflexivity|].
  rewrite <- app_assoc. cbn [app]. by rewrite IH.
Qed.

Section Separated.
Context {A : Type} (f : A → jsstring) (close : N).
Hypothesis close_not_comma : close ≠ COMMA.


Lemma sep_tail_prefix (l1 l2 : list A) r1 r2 :
  Forall (prefix_free f) l1 →
  sep_tail (map f l1) close r1 = sep_tail (map f l2) close r2 →
  l1 = l2 ∧ r1 = r2.
Proof.
  intros Hl1. revert l2. induction Hl1 as [|a l1 Ha _ IH]; intros [|b l2];
    cbn [map sep_tail].
  - by intros [= ->].
  - intros [= H _]. by destruct close_not_comma.
  - intros [= H _]. by destruct close_not_comma.
  - intros [= H]. apply Ha in H as [-> H]. apply IH in H as [-> ->]. done.
Qed.

Lemma join_comma_close_prefix (l1 l2 : list A) r1 r2 :
  Forall (prefix_free f) l1 →
  (∀ a, ∃ c t, f a = c :: t ∧ c ≠ close) →
  join_comma (map f l1) ++ close :: r1 = join_comma (map f l2) ++ close :: r2 →
  l1 = l2 ∧ r1 = r2.
Proof.
  intros Hl1 Hhead. rewrite !join_comma_close.
  destruct Hl1 as [|a l1 Ha Hl1], l2 as [|b l2]; cbn [map].
  - by intros [= ->].
  - destruct (Hhead b) as (c & t & -> & Hc). intros [= H _]. by subst.
  - destruct (Hhead a) as (c & t & -> & Hc). intros [= H _]. by subst.
  - intros H. apply Ha in H as [-> H].
    apply sep_tail_prefix in H as [-> ->]; done.
Qed.

End Separated.

(** Induction on query values that reaches the values nested in arrays and
    objects. *)
Lemma qval_nested_ind (P : qval → Prop) :
  (∀ s, P (QStr s)) →
  (∀ l, Forall P l → P (QArr l)) →
  (∀ l, Forall (λ p, P p.2) l → P (QObj l)) →
  ∀ v, P v.
Proof.
  intros HStr HArr HObj. fix IH 1. intros [s|l|l].
  - apply HStr.
  - apply HArr. induction l as [|v l IHl]; constructor; [apply IH | apply IHl].
  - apply HObj. induction l as [|[k v] l IHl]; constructor;
      [apply IH | apply IHl].
Qed.

(** The text of a query value is recognised in front of any text: the key
    text determines the value. *)
Lemma SerializeJSONValue_prefix v : prefix_free SerializeJSONValue v.
Proof.
  induction v as [s1|l1 IH|l1 IH] using qval_nested_ind;
    intros [s2|l2|l2] r1 r2; cbn [SerializeJSONValue];
    unfold QuoteJSONString; try (intros [= H]; discriminate H).
  - intros H. apply (QuoteJSONString_prefix s1 s2) in H as [-> ->]. done.
  - cbn [app]. rewrite <- !app_assoc. cbn [app]. intros [= H].
    apply join_comma_close_prefix in H as [-> ->]; try done.
    intros a. destruct (SerializeJSONValue_head a) as (c & t & -> & Hc).
    exists c, t. split; [done|]. unfold QUOTE, LBRACKET, LBRACE, RBRACKET in *.
    lia.
  - cbn [app]. rewrite <- !app_assoc. cbn [app]. intros [= H].
    apply (join_comma_close_prefix
             (λ p, QuoteJSONString p.1 ++ COLON :: SerializeJSONValue p.2))
      in H as [-> ->]; try done.
    + eapply Forall_impl; [exact IH|]. intros [k1 v1] Hv [k2 v2] t1 t2.
      cbn [fst snd] in *. rewrite <- !app_assoc. cbn [app]. intros H'.
      apply QuoteJSONString_prefix in H' as [-> [= H']].
      apply Hv in H' as [-> ->]. done.
    + intros [k v]. unfold QuoteJSONString. cbn [fst snd app].
      eexists _, _. split; [reflexivity|]. done.
Qed.


(** *** The key object of the listing handler *)

Lemma members_cons name (v : jsval) props :
  members ((name, v) :: props) =
    match SerializeJSONProperty v with
    | Some t => (QuoteJSONString name ++ COLON :: t) :: members props
    | None => members props
    end.
Proof.
  unfold members. change (omap ?f (?x :: ?l)) with
    (match f x with Some y => y :: omap f l | None => omap f l end).
  cbn [fst snd]. by destruct (SerializeJSONProperty v).
Qed.

Lemma JSON_stringify_first name (v : jsval) t props :
  SerializeJSONProperty v = Some t →
  JSON_stringify ((name, v) :: props) =
    LBRACE :: QuoteJSONString name ++ COLON :: t ++ object_tail props.
Proof.
  intros Hv. unfold JSON_stringify, object_tail.
  rewrite members_cons, Hv, join_comma_close.
  rewrite <- app_assoc. reflexivity.
Qed.

Lemma object_tail_cons name (v : jsval) props :
  object_tail ((name, v) :: props) =
    match SerializeJSONProperty v with
    | Some t => COMMA :: QuoteJSONString name ++ COLON :: t ++ object_tail props
    | None => object_tail props
    end.
Proof.
  unfold object_tail. rewrite members_cons.
  destruct (SerializeJSONProperty v); [|done].
  cbn [sep_tail]. rewrite <- app_assoc. reflexivity.
Qed.

Lemma object_tail_optional name (o : option qval) props :
  object_tail ((js name, match o with Some q => Val q | None => Undefined end)
               :: props) =
    optional_member name o ++ object_tail props.
Proof.
  rewrite object_tail_cons. destruct o; [|done].
  cbn [SerializeJSONProperty optional_member app].
  rewrite <- app_assoc. reflexivity.
Qed.

Lemma object_tail_defaulted name d (o : option qval) props :
  object_tail
    ((js name,
      default_to (Num d) match o with Some q => Val q | None => Undefined end)
     :: props) =
    COMMA :: QuoteJSONString (js name) ++ COLON :: defaulted_text d o
      ++ object_tail props.
Proof. rewrite object_tail_cons. by destruct o. Qed.

(** The key, member by member. *)
Lemma listing_cacheKey_members (query : gmap jsstring qval) :
  listing_cacheKey query =
    LBRACE :: QuoteJSONString (js "path") ++ COLON ::
      QuoteJSONString (js "/games") ++
      optional_member "search" (query !! js "search") ++
      COMMA :: QuoteJSONString (js "page") ++ COLON ::
        defaulted_text 1 (query !! js "page") ++
      COMMA :: QuoteJSONString (js "page_size") ++ COLON ::
        defaulted_text 20 (query !! js "page_size") ++
      optional_member "platforms" (query !! js "platforms") ++
      optional_member "genres" (query !! js "genres") ++
      optional_member "ordering" (query !! js "ordering") ++
      optional_member "esrb_rating" (query !! js "esrb_rating") ++
      [RBRACE].
Proof.
  unfold listing_cacheKey, listing_key_object, prop.
  erewrite JSON_stringify_first by reflexivity.
  rewrite object_tail_optional, !object_tail_defaulted, !object_tail_optional.
  reflexivity.
Qed.

Lemma cons_tail_eq (c : N) (x y : jsstring) : c :: x = c :: y → x = y.
Proof. by intros [= ->]. Qed.

Lemma follows_close name : follows name [RBRACE].
Proof. left. by eexists. Qed.

Lemma follows_member name name' t :
  js name' ≠ js name →
  follows name (COMMA :: QuoteJSONString (js name') ++ t).
Proof. intros Hne. right. by eexists _, _. Qed.

Lemma follows_optional name name' o r :
  js name' ≠ js name → follows name r →
  follows name (optional_member name' o ++ r).
Proof.
  intros Hne Hr. destruct o as [q|]; [|done].
  cbn [optional_member app]. rewrite <- app_assoc.
  by apply follows_member.
Qed.

(** An optional member is recognised in front of what may follow it. *)
Lemma optional_member_prefix name o1 o2 r1 r2 :
  follows name r1 → follows name r2 →
  optional_member name o1 ++ r1 = optional_member name o2 ++ r2 →
  o1 = o2 ∧ r1 = r2.
Proof.
  assert (Hstop : ∀ r t, follows name r →
            COMMA :: QuoteJSONString (js name) ++ t ≠ r).
  { intros r t [[t' ->]|(name' & t' & -> & Hne)]; [done|].
    intros H. apply cons_tail_eq in H.
    apply QuoteJSONString_prefix in H as [Heq _]. congruence. }
  intros Hr1 Hr2. destruct o1 as [q1|], o2 as [q2|];
    cbn [optional_member app]; rewrite <- ?app_assoc; cbn [app].
  - intros H. apply cons_tail_eq in H.
    apply QuoteJSONString_prefix in H as [_ H]. apply cons_tail_eq in H.
    apply SerializeJSONValue_prefix in H as [-> ->]. done.
  - intros H. by apply Hstop in H.
  - intros H. symmetry in H. by apply Hstop in H.
  - by intros ->.
Qed.

(** A member with a numeric default: the digits of the default are not the
    text of any query value. *)
Lemma defaulted_text_prefix d o1 o2 r1 r2 :
  (∃ c t, NumberToString d = c :: t ∧ 48 <= c <= 57) →
  defaulted_text d o1 ++ r1 = defaulted_text d o2 ++ r2 →
  o1 = o2 ∧ r1 = r2.
Proof.
  intros (c & t & Hd & Hc).
  assert (Hdigit : ∀ q r r', NumberToString d ++ r ≠ SerializeJSONValue q ++ r').
  { intros q r r'. rewrite Hd.
    destruct (SerializeJSONValue_head q) as (c' & t' & -> & Hc').
    intros [= -> _]. unfold QUOTE, LBRACKET, LBRACE in Hc'. lia. }
  destruct o1 as [q1|], o2 as [q2|]; cbn [defaulted_text].
  - intros H. apply SerializeJSONValue_prefix in H as [-> ->]. done.
  - intros H. symmetry in H. by apply Hdigit in H.
  - intros H. by apply Hdigit in H.
  - intros H. apply app_inv_head in H. by subst.
Qed.

(** Which entry of the key object carries a given name. *)
Ltac entry_of_object :=
  unfold listing_key_object, prop; rewrite !elem_of_cons, elem_of_nil; split;
  [ intros ->; repeat (first [left; reflexivity | right])
  | intros H;
    repeat (destruct H as [H|H];
            [ apply pair_equal_spec in H as [Hname Hvalue];
              first [ by vm_compute in Hname | by destruct (_ !! _) ] | ]);
    done ].

Lemma unset_filter_entry (query : gmap jsstring qval) name :
  name ∈ ["search"; "platforms"; "genres"; "ordering"; "esrb_rating"]%string →
  query !! js name = None ↔ (js name, Undefined) ∈ listing_key_object query.
Proof.
  rewrite !elem_of_cons, elem_of_nil.
  intros [->|[->|[->|[->|[->|[]]]]]]; entry_of_object.
Qed.

Lemma unset_page_entry (query : gmap jsstring qval) :
  query !! js "page" = None ↔ (js "page", Num 1) ∈ listing_key_object query.
Proof. entry_of_object. Qed.

Lemma unset_page_size_entry (query : gmap jsstring qval) :
  query !! js "page_size" = None ↔
  (js "page_size", Num 20) ∈ listing_key_object query.
Proof. entry_of_object. Qed.

(** C5, as the code has it.  The listing key is a function of the seven
    request parameters (the path marker is a constant): two queries derive
    the same key exactly when each of the seven parameters is unset in both
    or set to the same value in both.  In the key object an unset [search],
    [platforms], [genres], [ordering] or [esrb_rating] is [undefined], and
    its member is left out of the text; an unset [page] or [page_size] is
    replaced by the number 1 or 20, which is written into the text as a
    member like any other and is the text of no supplied value. *)
Theorem listing_cacheKey_identity (query1 query2 : gmap jsstring qval) :
  (listing_cacheKey query1 = listing_cacheKey query2 ↔
   Forall (λ name, query1 !! js name = query2 !! js name)
          listing_parameters) ∧
  (∀ name,
     name ∈ ["search"; "platforms"; "genres"; "ordering";
             "esrb_rating"]%string →
     (query1 !! js name = None ↔
        (js name, Undefined) ∈ listing_key_object query1) ∧
     members [(js name, Undefined)] = []) ∧
  (query1 !! js "page" = None ↔
     (js "page", Num 1) ∈ listing_key_object query1) ∧
  (query1 !! js "page_size" = None ↔
     (js "page_size", Num 20) ∈ listing_key_object query1) ∧
  members [(js "page", Num 1); (js "page_size", Num 20)] =
    [QuoteJSONString (js "page") ++ COLON :: js "1";
     QuoteJSONString (js "page_size") ++ COLON :: js "20"] ∧
  (∀ q, SerializeJSONProperty (Val q) ≠ SerializeJSONProperty (Num 1) ∧
        SerializeJSONProperty (Val q) ≠ SerializeJSONProperty (Num 20)).
Proof.
  split; [split|].
  - rewrite !listing_cacheKey_members. intros H. apply cons_tail_eq in H.
    apply QuoteJSONString_prefix in H as [_ H]. apply cons_tail_eq in H.
    apply QuoteJSONString_prefix in H as [_ H].
    apply optional_member_prefix in H as [Hsearch H];
      [| by apply follows_member..].
    apply cons_tail_eq in H.
    apply QuoteJSONString_prefix in H as [_ H]. apply cons_tail_eq in H.
    apply defaulted_text_prefix in H as [Hpage H];
      [| by eexists _, _].
    apply cons_tail_eq in H.
    apply QuoteJSONString_prefix in H as [_ H]. apply cons_tail_eq in H.
    apply defaulted_text_prefix in H as [Hsize H];
      [| by eexists _, _].
    apply optional_member_prefix in H as [Hplatforms H];
      [| by repeat (apply follows_optional; [done|]); apply follows_close ..].
    apply optional_member_prefix in H as [Hgenres H];
      [| by repeat (apply follows_optional; [done|]); apply follows_close ..].
    apply optional_member_prefix in H as [Hordering H];
      [| by repeat (apply follows_optional; [done|]); apply follows_close ..].
    apply optional_member_prefix in H as [Hrating _];
      [| by apply follows_close ..].
    unfold listing_parameters. repeat constructor; done.
  - unfold listing_parameters. rewrite !Forall_cons.
    intros (Hsearch & Hpage & Hsize & Hplatforms & Hgenres & Hordering
            & Hrating & _).
    rewrite !listing_cacheKey_members.
    by rewrite Hsearch, Hpage, Hsize, Hplatforms, Hgenres, Hordering, Hrating.
  - split; [|split; [|split; [|split]]].
    + intros name Hname. split; [by apply unset_filter_entry | done].
    + apply unset_page_entry.
    + apply unset_page_size_entry.
    + reflexivity.
    + intros q. cbn [SerializeJSONProperty].
      destruct (SerializeJSONValue_head q) as (c & t & -> & Hc).
      unfold QUOTE, LBRACKET, LBRACE in Hc.
      split; intros [= -> _]; lia.
Qed.

End JsonProperties.

(** ** Concrete runs

    The inputs at which the specification's wording and the code part ways,
    and the statements above at explicit inputs. *)

(** C1 fails at the expiry second: the entry has [timestamp <= now], yet the
    lookup returns it and leaves it in the store. *)
Lemma getGameCache_at_expiry_second :
  ∃ item,
    gameCache cached_until_100 !! js "k" = Some item ∧
    GameCache.timestamp item ≤ 100 ∧
    getGameCache (js "k") 100 cached_until_100 = (Some item, cached_until_100) ∧
    (getGameCache (js "k") 100 cached_until_100).1 ≠ None ∧
    gameCache (getGameCache (js "k") 100 cached_until_100).2 !! js "k" ≠ None.
Proof.
  exists (GameCache.mk 1 (js "k") 7 100).
  assert (gameCache cached_until_100 !! js "k"
          = Some (GameCache.mk 1 (js "k") 7 100)) as Hk.
  { apply lookup_insert_eq. }
  assert (getGameCache (js "k") 100 cached_until_100
          = (Some (GameCache.mk 1 (js "k") 7 100), cached_until_100)) as Hget.
  { by apply getGameCache_live. }
  rewrite Hget. cbn [fst snd]. rewrite Hk. repeat split; done.
Qed.

(** C3 fails at the expiry second: after a sweep at second 100 the entry
    that expires at 100 is still in the cache. *)
Lemma clearExpiredCache_at_expiry_second :
  ∃ item,
    gameCache (clearExpiredCache 100 cached_until_100) !! js "k" = Some item ∧
    GameCache.timestamp item ≤ 100.
Proof.
  exists (GameCache.mk 1 (js "k") 7 100). split; [|done].
  rewrite clearExpiredCache_lookup.
  assert (gameCache cached_until_100 !! js "k"
          = Some (GameCache.mk 1 (js "k") 7 100)) as ->.
  { apply lookup_insert_eq. }
  done.
Qed.

(** C4 fails when the miss comes from an expired entry: the detail request
    for game 42 at second 10 finds an entry that expired at second 5, the
    upstream call is rejected, and the cache after the request is not the
    cache from before it. *)
Lemma failed_fetch_drops_expired_entry :
  let o := handle (js "key") (DetailsRequest (js "42")) upstream_down 10 10
                  stale_details in
  (getGameCache (details_cacheKey (js "42")) 10 stale_details).1 = None ∧
  status (sent o) = 500 ∧
  gameCache (store o) ≠ gameCache stale_details.
Proof.
  intros o. set (s := stale_details) in *.
  assert (gameCache s !! details_cacheKey (js "42")
          = Some (GameCache.mk 1 (details_cacheKey (js "42")) 7 5)) as Hk.
  { apply lookup_insert_eq. }
  assert (Hmiss : (getGameCache (details_cacheKey (js "42")) 10 s).1 = None).
  { by erewrite getGameCache_expired. }
  destruct (handle_rejected (js "key") (DetailsRequest (js "42"))
              (details_cacheKey (js "42")) upstream_down 10 10 s)
    as (m & Hsent & Hstore); [done..|].
  fold o in Hsent, Hstore.
  split; [done|]. split; [by rewrite Hsent|].
  intros Heq.
  destruct (getGameCache_miss_store _ _ _ Hmiss) as (_ & Hnone & _).
  rewrite <- Hstore, Heq, Hk in Hnone. done.
Qed.

(** C5 fails for [page] (and [page_size]): with no parameter set, the key
    object holds the number 1 under [page], not [undefined], and the key text
    has a [page] member. *)
Lemma unset_page_is_written :
  no_parameters !! js "page" = None ∧
  ¬ ((js "page", Undefined) ∈ listing_key_object no_parameters) ∧
  listing_cacheKey no_parameters =
    JSON_stringify [ (js "path", Val (QStr (js "/games")));
                     (js "page", Num 1); (js "page_size", Num 20) ].
Proof.
  split; [done|]. split; [|reflexivity].
  unfold listing_key_object, prop. rewrite !elem_of_cons, elem_of_nil.
  intros H.
  repeat (destruct H as [H|H];
          [ apply pair_equal_spec in H as [Hname Hvalue];
            first [ by vm_compute in Hname | done ] | ]).
  done.
Qed.

(** C8 fails on duplicates: with two favourites for game 7, the code removes
    both, where removing the first match would leave the second. *)
Lemma removeFavorite_removes_duplicates :
  length (getUserFavorites 1 with_duplicates) = 2%nat ∧
  getUserFavorites 1 (removeFavorite 1 7 with_duplicates).2 = [] ∧
  remove_first_match 7 (getUserFavorites 1 with_duplicates) =
    [Favorite.mk 2 1 7 (js "Portal") None 20] ∧
  getUserFavorites 1 (removeFavorite 1 7 with_duplicates).2 ≠
    remove_first_match 7 (getUserFavorites 1 with_duplicates).
Proof.
  assert (getUserFavorites 1 with_duplicates =
          [ Favorite.mk 1 1 7 (js "Portal") None 10;
            Favorite.mk 2 1 7 (js "Portal") None 20 ]) as Hfavs.
  { reflexivity. }
  assert (getUserFavorites 1 (removeFavorite 1 7 with_duplicates).2 = [])
    as Hafter.
  { rewrite getUserFavorites_removeFavorite, decide_True, Hfavs by done.
    reflexivity. }
  rewrite Hafter, Hfavs. repeat split; done.
Qed.


(** C4 as the code has it, at the detail request for game 42 that finds an
    expired entry while upstream is down. *)
Lemma failed_fetch_writes_no_entry_witness :
  let r := DetailsRequest (js "42") in
  let key := details_cacheKey (js "42") in
  let o := handle (js "key") r upstream_down 10 10 stale_details in
  (cacheKey_of r = Some key ∧
   (getGameCache key 10 stale_details).1 = None ∧
   (∀ c, c ∈ fetched o → upstream_down c = Rejected)) ∧
  (∃ m, sent o = mkResponse 500 (Message m)) ∧
  (∃ c, fetched o = [c]) ∧
  store o = (getGameCache key 10 stale_details).2 ∧
  gameCache (store o) !! key = None ∧
  gameCache (store o) = delete key (gameCache stale_details) ∧
  currentId (store o) = currentId stale_details ∧
  (gameCache stale_details !! key = None → store o = stale_details) ∧
  (∀ axios_get' t_lookup' t_store',
     fetched (handle (js "key") r axios_get' t_lookup' t_store' (store o))
     = fetched o).
Proof.
  intros r key o.
  assert (Hmiss : (getGameCache key 10 stale_details).1 = None).
  { erewrite getGameCache_expired; [done | apply lookup_insert_eq | done]. }
  assert (Hdown : ∀ c, c ∈ fetched o → upstream_down c = Rejected) by done.
  split; [done|].
  exact (failed_fetch_writes_no_entry (js "key") r key upstream_down 10 10
           stale_details eq_refl Hmiss Hdown).
Defined.

(** C7 for the stored user 1 and game 7. *)
Lemma favorites_round_trip_witness :
  let add :=
    addFavorite (InsertFavorite.mk 1 7 (js "Portal") None) 10 with_alice in
  let rm1 := removeFavorite 1 7 add.2 in
  let rm2 := removeFavorite 1 7 rm1.2 in
  (getUserById 1 with_alice = Some alice_stored ∧
   (∀ fav, fav ∈ getUserFavorites 1 with_alice → Favorite.gameId fav ≠ 7)) ∧
  Favorite.gameId add.1 = 7 ∧
  filter (λ fav, Favorite.gameId fav = 7) (getUserFavorites 1 add.2) = [add.1] ∧
  rm1.1 = true ∧
  (∀ fav, fav ∈ getUserFavorites 1 rm1.2 → Favorite.gameId fav ≠ 7) ∧
  getUserFavorites 1 rm1.2 = getUserFavorites 1 with_alice ∧
  rm2.1 = false ∧ rm2.2 = rm1.2.
Proof.
  intros add rm1 rm2.
  assert (Huser : getUserById 1 with_alice = Some alice_stored)
    by reflexivity.
  assert (Hnone : ∀ fav, fav ∈ getUserFavorites 1 with_alice →
                         Favorite.gameId fav ≠ 7).
  { intros fav Hin. change (getUserFavorites 1 with_alice) with
      (@nil Favorite.t) in Hin. by apply elem_of_nil in Hin. }
  split; [done|].
  exact (favorites_round_trip with_alice 1 7 (js "Portal") 10 _ Huser Hnone).
Defined.

(** C9 along [sample_history]. *)
Lemma favoriteGames_mirror_witness :
  adds_known new_MemStorage sample_history ∧
  ∀ user, user ∈ map_values (users (run new_MemStorage sample_history)) →
    User.favoriteGames user =
      Favorite.gameId <$>
        getUserFavorites (User.id user) (run new_MemStorage sample_history).
Proof.
  assert (Hknown : adds_known new_MemStorage sample_history).
  { repeat split; by eexists. }
  split; [done|]. exact (favoriteGames_mirror sample_history Hknown).
Defined.

(** C2 for a write at second 100 with 50 seconds to live, followed by
    [sample_cache_history]. *)
Lemma cached_entry_lifetime_witness :
  let put := cacheGameData (js "k") 7 (100 + 50) new_MemStorage in
  (no_put (js "k") sample_cache_history ∧
   not_after 140 sample_cache_history) ∧
  getGameCache (js "k") 140 (run put.2 sample_cache_history)
    = (Some put.1, run put.2 sample_cache_history) ∧
  (getGameCache (js "k") 151 (run put.2 sample_cache_history)).1 = None ∧
  (getGameCache (js "k") 140
     (run (getGameCache (js "k") 151 (run put.2 sample_cache_history)).2
          sample_cache_history)).1 = None.
Proof.
  intros put.
  assert (Hno : no_put (js "k") sample_cache_history).
  { repeat constructor. discriminate. }
  assert (Hna : not_after 140 sample_cache_history).
  { repeat constructor; discriminate. }
  destruct (cached_entry_lifetime (js "k") 7 100 50 new_MemStorage)
    as (_ & Hlive & Hgone & Hstay).
  split; [done|]. split; [|split].
  - apply Hlive; [done | done | reflexivity].
  - apply Hgone; [done | reflexivity].
  - apply Hstay; [done | done | reflexivity].
Defined.

Lemma dispatch_never_search m path ps :
  dispatch m path ≠ Some (GamesSearch, ps).
Proof.
  unfold dispatch, routes.
  destruct m; cbn [first_match]; simpl decide; cbv iota.
  all: destruct path as [|a [|b [|c [|d path]]]]; cbn [match_path].
  all: repeat case_decide; try done.
  all: try (destruct c; cbn [fmap option_fmap option_map]; done).
Qed.

(** C6, where the code departs from it.  The pattern [/api/games/:id] is
    registered before [/api/games/search], so no request is ever dispatched
    to the search handler, the one that uses the key ["/search/" + query] and
    1800 seconds.  [GET /api/games/search?query=mario] is served by the
    detail handler with id ["search"]: on the empty store, with upstream
    answering, it stores the payload under ["/games/search"] with the clock
    plus 86400 seconds, and nothing under ["/search/mario"]. *)
Theorem search_route_is_shadowed :
  (∀ m path ps, dispatch m path ≠ Some (GamesSearch, ps)) ∧
  dispatch GET [js "api"; js "games"; js "search"]
    = Some (GameDetails, [("id"%string, js "search")]) ∧
  ∃ o, serve (js "key") GET [js "api"; js "games"; js "search"] query_mario
         upstream_up 1000 1000 new_MemStorage = Some o ∧
       o = handle (js "key") (DetailsRequest (js "search")) upstream_up
             1000 1000 new_MemStorage ∧
       sent o = mkResponse 200 (Data 7) ∧
       gameCache (store o) !! js "/games/search"
         = Some (GameCache.mk 1 (js "/games/search") 7 (1000 + 86400)) ∧
       gameCache (store o) !! search_cacheKey (js "mario") = None.
Proof.
  split; [apply dispatch_never_search|]. split; [reflexivity|].
  eexists. split; [reflexivity|]. split; [reflexivity|].
  split; [reflexivity|]. split; vm_compute; reflexivity.
Qed.

(** * Further properties of the code *)

(** ** The cache store, continued *)

Section MoreCacheProperties.
Context {payload : Type}.
Implicit Types (s : MemStorage payload) (key : jsstring) (now : Z).
Implicit Types (item : GameCache.t payload) (h : list (call payload)).

Lemma MemStorage_eq s1 s2 :
  gameCache s1 = gameCache s2 → users s1 = users s2 →
  favorites s1 = favorites s2 → currentId s1 = currentId s2 →
  userId s1 = userId s2 → favoriteId s1 = favoriteId s2 → s1 = s2.
Proof. destruct s1, s2; simpl; intros; by subst. Qed.

(** X1.  Two sweeps in a row amount to one sweep at the later of the two
    moments; in particular a sweep repeated at the same moment changes
    nothing. *)
Theorem clearExpiredCache_twice n1 n2 s :
  clearExpiredCache n2 (clearExpiredCache n1 s)
    = clearExpiredCache (Z.max n1 n2) s.
Proof.
  apply MemStorage_eq; try done.
  apply map_eq. intros key. rewrite !clearExpiredCache_lookup.
  destruct (gameCache s !! key) as [item|]; [|done].
  repeat case_bool_decide; try done; lia.
Qed.

(** X2.  A sweep is invisible to later readers: a lookup at a moment not
    before the sweep returns what it would have returned without the sweep,
    and sweeping before or after the lookup leaves the same cache. *)
Theorem clearExpiredCache_invisible now t key s :
  now ≤ t →
  (getGameCache key t (clearExpiredCache now s)).1 = (getGameCache key t s).1 ∧
  gameCache (getGameCache key t (clearExpiredCache now s)).2
    = gameCache (clearExpiredCache now (getGameCache key t s).2).
Proof.
  intros Hle. unfold getGameCache at 1 3.
  rewrite clearExpiredCache_lookup.
  destruct (gameCache s !! key) as [item|] eqn:Hk.
  - destruct (bool_decide (GameCache.timestamp item < now)) eqn:Hnow.
    + apply bool_decide_eq_true in Hnow.
      rewrite (getGameCache_expired _ _ _ _ Hk) by lia. split; [done|].
      cbn [snd]. apply map_eq. intros k.
      rewrite !clearExpiredCache_lookup. cbn [gameCache set_gameCache].
      destruct (decide (k = key)) as [->|Hne].
      * rewrite lookup_delete_eq, Hk. by rewrite bool_decide_eq_true_2.
      * by rewrite lookup_delete_ne.
    + apply bool_decide_eq_false in Hnow.
      destruct (bool_decide (GameCache.timestamp item < t)) eqn:Ht.
      * apply bool_decide_eq_true in Ht.
        rewrite (getGameCache_expired _ _ _ _ Hk) by lia. split; [done|].
        cbn [snd]. apply map_eq. intros k.
        rewrite !clearExpiredCache_lookup. cbn [gameCache set_gameCache].
        destruct (decide (k = key)) as [->|Hne].
        -- by rewrite !lookup_delete_eq.
        -- rewrite !lookup_delete_ne by done.
           by rewrite clearExpiredCache_lookup.
      * apply bool_decide_eq_false in Ht.
        rewrite (getGameCache_live _ _ _ _ Hk) by lia. done.
  - rewrite (getGameCache_absent _ _ _ Hk). done.
Qed.

Lemma step_cache_wf s (c : call payload) : cache_wf s → cache_wf (step s c).
Proof.
  intros (Hpos & Hown & Hids).
  assert (Hsub : ∀ s', currentId s' = currentId s →
            (∀ k i, gameCache s' !! k = Some i → gameCache s !! k = Some i) →
            cache_wf s').
  { intros s' Hc Hin. split; [by rewrite Hc|]. split.
    - intros k i Hk. rewrite Hc. apply Hown. by apply Hin.
    - intros k1 k2 i1 i2 H1 H2. apply Hids; by apply Hin. }
  destruct c; cbn [step].
  - destruct (getGameCache_store key now s) as [-> | ->]; [done|].
    apply Hsub; [done|]. intros k i. simpl.
    rewrite lookup_delete_Some. tauto.
  - split; [simpl; lia|]. split; simpl.
    + intros k i. destruct (decide (key = k)) as [->|Hne].
      * rewrite lookup_insert_eq. intros [= <-]. simpl. split; [done|lia].
      * rewrite lookup_insert_ne by done. intros Hk.
        destruct (Hown _ _ Hk) as [? ?]. split; [done|lia].
    + intros k1 k2 i1 i2.
      destruct (decide (key = k1)) as [E1|Hne1],
               (decide (key = k2)) as [E2|Hne2]; [congruence|..].
      * subst k1. rewrite lookup_insert_eq, lookup_insert_ne by done.
        intros [= <-] Hk. apply Hown in Hk. simpl. lia.
      * subst k2. rewrite lookup_insert_eq, lookup_insert_ne by done.
        intros Hk [= <-]. apply Hown in Hk. simpl. lia.
      * rewrite !lookup_insert_ne by done. apply Hids.
  - apply Hsub; [done|]. intros k i. rewrite clearExpiredCache_lookup.
    destruct (gameCache s !! k); [|done]. by case_bool_decide.
  - done.
  - done.
  - unfold removeFavorite. destruct (favorites s !! uid); [|done].
    case_bool_decide; [done|]. simpl. by destruct (map_get uid (users s)).
Qed.

Lemma run_cache_wf h : cache_wf (run (new_MemStorage (payload:=payload)) h).
Proof.
  assert (∀ s, cache_wf s → cache_wf (run s h)) as Hrun.
  { induction h as [|c h IH]; intros s Hs; [done|].
    simpl. apply IH. by apply step_cache_wf. }
  apply Hrun. split; [done|]. split.
  - intros key item H. simpl in H. by rewrite lookup_empty in H.
  - intros key1 key2 item1 item2 H. simpl in H. by rewrite lookup_empty in H.
Qed.

(** X3.  In the store reached by any history of calls, every cache entry sits
    under the key recorded in it, its id is at least 1 and below the counter,
    and entries under different keys have different ids. *)
Theorem cache_entries_wf h :
  let s := run (new_MemStorage (payload:=payload)) h in
  1 ≤ currentId s ∧
  (∀ key item, gameCache s !! key = Some item →
     GameCache.key item = key ∧ 1 ≤ GameCache.id item < currentId s) ∧
  (∀ key1 key2 item1 item2,
     gameCache s !! key1 = Some item1 → gameCache s !! key2 = Some item2 →
     GameCache.id item1 = GameCache.id item2 → key1 = key2).
Proof.
  intros s. subst s.
  change (cache_wf (run (new_MemStorage (payload:=payload)) h)).
  assert (cache_wf (new_MemStorage (payload:=payload))) as Hnew.
  { split; [done|]. split.
    - intros key item H. simpl in H. by rewrite lookup_empty in H.
    - intros key1 key2 item1 item2 H. simpl in H.
      by rewrite lookup_empty in H. }
  revert Hnew. generalize (new_MemStorage (payload:=payload)) as s.
  induction h as [|c h IH]; intros s Hs; [done|].
  simpl. apply IH. by apply step_cache_wf.
Qed.

Lemma step_currentId s (c : call payload) :
  currentId (step s c) =
    currentId s + match c with CacheGameData _ _ _ => 1 | _ => 0 end.
Proof.
  destruct c; cbn [step]; try (simpl; lia).
  - destruct (getGameCache_store key now s) as [-> | ->]; simpl; lia.
  - unfold removeFavorite. destruct (favorites s !! uid); [|simpl; lia].
    case_bool_decide; [simpl; lia|].
    destruct (map_get uid _); simpl; lia.
Qed.

Lemma run_currentId h s : currentId (run s h) = currentId s + Z.of_nat (writes h).
Proof.
  unfold writes. revert s. induction h as [|c h IH]; intros s; [simpl; lia|].
  simpl. rewrite IH, step_currentId. destruct c; simpl; lia.
Qed.

(** X4.  In the store reached by any history, [cacheGameData] hands out the
    next id: one more than the number of writes so far, and above the id of
    every entry in the cache.  The entry it returns replaces whatever was
    stored under the key, and no other key changes. *)
Theorem cacheGameData_fresh_id h key data timestamp :
  let s := run (new_MemStorage (payload:=payload)) h in
  let put := cacheGameData key data timestamp s in
  GameCache.id put.1 = 1 + Z.of_nat (writes h) ∧
  (∀ key' item, gameCache s !! key' = Some item →
     GameCache.id item < GameCache.id put.1) ∧
  gameCache put.2 !! key = Some put.1 ∧
  (∀ key', key' ≠ key → gameCache put.2 !! key' = gameCache s !! key') ∧
  currentId put.2 = GameCache.id put.1 + 1.
Proof.
  intros s put. destruct (run_cache_wf h) as (_ & Hown & _). fold s in Hown.
  split; [|split; [|split; [|split]]].
  - subst put s. simpl. by rewrite run_currentId.
  - intros key' item Hk. apply Hown in Hk. subst put. simpl. lia.
  - subst put. simpl. apply lookup_insert_eq.
  - intros key' Hne. subst put. simpl. by rewrite lookup_insert_ne.
  - done.
Qed.

End MoreCacheProperties.

(** ** Accounts and favourites, continued *)

Section MoreAccountProperties.
Context {payload : Type}.
Implicit Types (s : MemStorage payload) (h : list (call payload)).
Implicit Types (uid g : Z) (user : User.t).

Lemma step_keys s (c : call payload) :
  users_wf s → is_CreateUser c = false → (users (step s c)).*1 = (users s).*1.
Proof.
  intros Hwf Hc. destruct c; cbn [step]; try done.
  - destruct (getGameCache_store key now s) as [-> | ->]; done.
  - unfold addFavorite. cbn [snd users].
    destruct (map_get (InsertFavorite.userId favoriteData) (users s))
      as [user|] eqn:Hu; [|done].
    apply write_user_keys; [|by rewrite Hu]. simpl. by eapply users_wf_id.
  - unfold removeFavorite. destruct (favorites s !! uid); [|done].
    case_bool_decide; [done|]. cbn [set_favorites users].
    destruct (map_get uid (users s)) as [user|] eqn:Hu; [|done].
    cbn [snd set_users users].
    apply write_user_keys; [|by rewrite Hu]. simpl. by eapply users_wf_id.
Qed.

Lemma run_keys h s :
  users_wf s → 1 ≤ userId s → (users s).*1 = seqZ 1 (userId s - 1) →
  (users (run s h)).*1 = seqZ 1 (userId (run s h) - 1).
Proof.
  revert s. induction h as [|c h IH]; intros s Hwf Hpos Hkeys; [done|].
  simpl. apply IH.
  - by apply step_users_wf.
  - rewrite step_userId. destruct (is_CreateUser c); lia.
  - rewrite step_userId. destruct (is_CreateUser c) eqn:Hc.
    + destruct c; try done. cbn [step].
      rewrite createUser_users by done. rewrite fmap_app, Hkeys. simpl.
      replace (userId s + 1 - 1) with ((userId s - 1) + 1) by lia.
      rewrite seqZ_app by lia. do 2 f_equal.
      rewrite seqZ_cons, seqZ_nil by lia. f_equal. lia.
    + rewrite step_keys by done. rewrite Hkeys. f_equal. lia.
Qed.

(** X5.  Users are numbered 1, 2, 3, ... in creation order and are never
    removed: in the store reached by any history, the ids of the stored
    users are exactly 1 to the number of [createUser] calls, in that order;
    [getUserById] finds a user exactly for those ids, and the user it finds
    carries the id asked for. *)
Theorem users_are_numbered h :
  let s := run (new_MemStorage (payload:=payload)) h in
  User.id <$> map_values (users s) = seqZ 1 (Z.of_nat (creations h)) ∧
  (∀ uid, is_Some (getUserById uid s) ↔ 1 ≤ uid ≤ Z.of_nat (creations h)) ∧
  (∀ uid user, getUserById uid s = Some user → User.id user = uid).
Proof.
  intros s. pose proof (run_users_wf h _ new_users_wf) as Hwf. fold s in Hwf.
  assert ((users s).*1 = seqZ 1 (Z.of_nat (creations h))) as Hkeys.
  { subst s. rewrite run_keys; [|apply new_users_wf|done|done].
    rewrite run_userId. simpl. f_equal. lia. }
  split; [|split].
  - by rewrite users_wf_ids.
  - intros uid. unfold getUserById.
    rewrite <- not_eq_None_Some, map_get_None, Hkeys, elem_of_seqZ.
    split; [|intros ? ?; lia].
    intros H. destruct (decide (1 ≤ uid < 1 + Z.of_nat (creations h))); [lia|].
    by destruct H.
  - intros uid user Hu. by destruct (users_wf_id _ _ _ Hwf Hu).
Qed.

Lemma getUserById_value s user :
  users_wf s → user ∈ map_values (users s) →
  getUserById (User.id user) s = Some user.
Proof.
  intros [Hall Hsort] Hin. apply list_elem_of_fmap in Hin as [[k u] [-> Hin]].
  simpl. assert (User.id u = k) as ->.
  { rewrite Forall_forall in Hall. by apply Hall in Hin as [? _]. }
  by apply map_get_elem.
Qed.

(** X6.  [getUserByUsername] returns, among the stored users with that user
    name, the one with the least id, and absent only when there is none; and
    the user that [getUserByEmail] or [getUserByUsername] returns is the one
    [getUserById] returns for its id. *)
Theorem getUserByUsername_first h :
  let s := run (new_MemStorage (payload:=payload)) h in
  (∀ username,
     match getUserByUsername username s with
     | Some user =>
         User.username user = username ∧ user ∈ map_values (users s) ∧
         ∀ user', user' ∈ map_values (users s) →
                  User.username user' = username → User.id user ≤ User.id user'
     | None =>
         ∀ user', user' ∈ map_values (users s) → User.username user' ≠ username
     end) ∧
  (∀ username user, getUserByUsername username s = Some user →
     getUserById (User.id user) s = Some user) ∧
  (∀ email user, getUserByEmail email s = Some user →
     getUserById (User.id user) s = Some user).
Proof.
  intros s. pose proof (run_users_wf h _ new_users_wf) as Hwf. fold s in Hwf.
  assert (Hvalue : ∀ user, user ∈ map_values (users s) →
            getUserById (User.id user) s = Some user).
  { intros user Hin. by apply getUserById_value. }
  split; [|split].
  - intros username. unfold getUserByUsername.
    pose proof (find_least (λ user, bool_decide (User.username user = username))
                  (map_values (users s))) as Hfind.
    rewrite users_wf_ids in Hfind by done. destruct Hwf as [_ Hsort].
    specialize (Hfind Hsort).
    destruct (List.find _ _) as [user|].
    + destruct Hfind as (Hf & Hin & Hleast). apply bool_decide_eq_true in Hf.
      split; [done|]. split; [done|]. intros user' Hin' He.
      apply Hleast; [done|]. by apply bool_decide_eq_true.
    + intros user' Hin'. apply Hfind in Hin'.
      by apply bool_decide_eq_false in Hin'.
  - intros username user Hfind. apply Hvalue.
    apply find_some in Hfind as [Hin _]. by apply list_elem_of_In.
  - intros email user Hfind. apply Hvalue.
    apply find_some in Hfind as [Hin _]. by apply list_elem_of_In.
Qed.


(** Only [favoriteGames] differs. *)
Lemma step_user_identity s (c : call payload) uid user :
  users_wf s → getUserById uid s = Some user →
  ∃ games, getUserById uid (step s c) = Some (User.set_favoriteGames games user).
Proof.
  intros Hwf Hu.
  assert (Hsame : getUserById uid s =
                  Some (User.set_favoriteGames (User.favoriteGames user) user)).
  { rewrite Hu. by destruct user. }
  destruct c as [key now|key data ts|now|userData hashed date
                 |favoriteData date|uid0 g]; cbn [step].
  - exists (User.favoriteGames user).
    destruct (getGameCache_store key now s) as [-> | ->]; done.
  - by exists (User.favoriteGames user).
  - by exists (User.favoriteGames user).
  - exists (User.favoriteGames user). rewrite getUserById_createUser.
    rewrite decide_False; [done|].
    destruct (users_wf_id _ _ _ Hwf Hu). lia.
  - rewrite getUserById_addFavorite by done.
    destruct (getUserById (InsertFavorite.userId favoriteData) s)
      as [user'|] eqn:Hu'; [|by eexists].
    destruct (decide (uid = _)) as [->|Hne]; [|by eexists].
    rewrite Hu in Hu'. injection Hu' as <-. by eexists.
  - destruct (decide (uid = uid0)) as [->|Hne].
    + destruct (removeFavorite uid0 g s).1 eqn:Hr.
      * rewrite (getUserById_removeFavorite _ _ _ _ Hr Hu). by eexists.
      * rewrite removeFavorite_noop by done. by eexists.
    + rewrite getUserById_removeFavorite_other by done. by eexists.
Qed.

(** X7.  Once stored, a user keeps its id, e-mail, user name, password hash,
    creation date and picture through every later call; only
    [favoriteGames] is ever rewritten. *)
Theorem stored_user_is_stable h s uid user :
  users_wf s → getUserById uid s = Some user →
  ∃ games,
    getUserById uid (run s h) = Some (User.set_favoriteGames games user).
Proof.
  revert s user. induction h as [|c h IH]; intros s user Hwf Hu.
  - exists (User.favoriteGames user). simpl. rewrite Hu. by destruct user.
  - simpl. destruct (step_user_identity s c uid user Hwf Hu) as [games Hstep].
    destruct (IH _ _ (step_users_wf _ c Hwf) Hstep) as [games' Hrun].
    exists games'. by rewrite Hrun.
Qed.


(** X9.  [removeFavorite] is idempotent: repeated with the same arguments
    it returns false and leaves the store as the first call left it. *)
Theorem removeFavorite_idempotent s uid g :
  removeFavorite uid g (removeFavorite uid g s).2
    = (false, (removeFavorite uid g s).2).
Proof.
  assert ((removeFavorite uid g (removeFavorite uid g s).2).1 = false) as Hr.
  { apply removeFavorite_result. intros fav.
    rewrite getUserFavorites_removeFavorite, decide_True by done.
    rewrite list_elem_of_filter. tauto. }
  pose proof (removeFavorite_noop _ _ _ Hr) as Hs.
  destruct (removeFavorite uid g (removeFavorite uid g s).2) as [r s'].
  simpl in *. by subst.
Qed.

(** X10.  [addFavorite] checks nothing: whether or not the user already has
    a favourite for the game, the new favourite is appended to the user's
    list (so the number of favourites for that game grows by one), the lists
    of other users stay as they are, and when the user is stored the game id
    is appended to [favoriteGames] as well. *)
Theorem addFavorite_appends s favoriteData date :
  let uid := InsertFavorite.userId favoriteData in
  let g := InsertFavorite.gameId favoriteData in
  let add := addFavorite favoriteData date s in
  getUserFavorites uid add.2 = getUserFavorites uid s ++ [add.1] ∧
  length (filter (λ fav, Favorite.gameId fav = g) (getUserFavorites uid add.2))
    = S (length (filter (λ fav, Favorite.gameId fav = g)
                        (getUserFavorites uid s))) ∧
  (∀ uid', uid' ≠ uid → getUserFavorites uid' add.2 = getUserFavorites uid' s) ∧
  Favorite.id add.1 = favoriteId s ∧ favoriteId add.2 = favoriteId s + 1 ∧
  (∀ user, getUserById uid s = Some user →
     getUserById uid add.2 =
       Some (User.set_favoriteGames (User.favoriteGames user ++ [g]) user)).
Proof.
  intros uid g add.
  assert (Hfavs : getUserFavorites uid add.2 = getUserFavorites uid s ++ [add.1]).
  { subst add. rewrite getUserFavorites_addFavorite. by rewrite decide_True. }
  split; [done|]. split; [|split; [|split; [done|split; [done|]]]].
  - rewrite Hfavs, filter_app, length_app.
    rewrite filter_cons_True by done. simpl. lia.
  - intros uid' Hne. subst add. rewrite getUserFavorites_addFavorite.
    by rewrite decide_False.
  - intros user Hu. subst add uid. unfold getUserById, addFavorite.
    cbn [snd users]. unfold getUserById in Hu. rewrite Hu.
    apply getUserById_write_user.
Qed.

Lemma StronglySorted_fmap_filter {A} (f : A → Z) (P : A → Prop)
    `{!∀ x, Decision (P x)} (l : list A) :
  StronglySorted Z.lt (f <$> l) → StronglySorted Z.lt (f <$> filter P l).
Proof.
  induction l as [|x l IH]; [done|]. rewrite fmap_cons. intros Hs.
  apply StronglySorted_inv in Hs as [Hs Hall].
  destruct (decide (P x)).
  - rewrite filter_cons_True by done. rewrite fmap_cons.
    constructor; [by apply IH|].
    rewrite Forall_fmap in Hall. rewrite Forall_fmap.
    rewrite Forall_forall in Hall. apply Forall_forall.
    intros y Hy. apply Hall. by apply list_elem_of_filter in Hy as [_ ?].
  - rewrite filter_cons_False by done. by apply IH.
Qed.

Lemma step_favoriteId s (c : call payload) :
  favoriteId (step s c) =
    favoriteId s + match c with AddFavorite _ _ => 1 | _ => 0 end.
Proof.
  destruct c; cbn [step]; try (simpl; lia).
  - destruct (getGameCache_store key now s) as [-> | ->]; simpl; lia.
  - unfold removeFavorite. destruct (favorites s !! uid); [|simpl; lia].
    case_bool_decide; [simpl; lia|].
    destruct (map_get uid _); simpl; lia.
Qed.

Lemma run_favoriteId h s :
  favoriteId (run s h) = favoriteId s + Z.of_nat (additions h).
Proof.
  unfold additions. revert s. induction h as [|c h IH]; intros s; [simpl; lia|].
  simpl. rewrite IH, step_favoriteId. destruct c; simpl; lia.
Qed.

(** What a call does to the favourites of a user. *)
Lemma getUserFavorites_step s (c : call payload) uid :
  getUserFavorites uid (step s c) =
    match c with
    | AddFavorite favoriteData date =>
        if decide (uid = InsertFavorite.userId favoriteData)
        then getUserFavorites uid s ++ [(addFavorite favoriteData date s).1]
        else getUserFavorites uid s
    | RemoveFavorite uid' g =>
        if decide (uid = uid')
        then filter (λ fav, Favorite.gameId fav ≠ g) (getUserFavorites uid' s)
        else getUserFavorites uid s
    | _ => getUserFavorites uid s
    end.
Proof.
  destruct c; cbn [step]; try done.
  - destruct (getGameCache_store key now s) as [-> | ->]; done.
  - apply getUserFavorites_addFavorite.
  - apply getUserFavorites_removeFavorite.
Qed.

Lemma step_favorites_wf s (c : call payload) :
  favorites_wf s → favorites_wf (step s c).
Proof.
  intros [Hpos Hwf]. split.
  { rewrite step_favoriteId. destruct c; lia. }
  intros uid. rewrite getUserFavorites_step, step_favoriteId.
  destruct (Hwf uid) as [Hall Hsort].
  assert (Hweak : ∀ d l, 0 ≤ d →
    Forall (λ fav, Favorite.userId fav = uid ∧
                   1 ≤ Favorite.id fav < favoriteId s) l →
    Forall (λ fav, Favorite.userId fav = uid ∧
                   1 ≤ Favorite.id fav < favoriteId s + d) l).
  { intros d l Hd Hl. eapply Forall_impl; [exact Hl|].
    intros fav [? ?]. split; [done|lia]. }
  destruct c as [key now|key data ts|now|userData hashed date
                 |favoriteData date|uid' g]; try (split; [by apply Hweak|done]).
  - destruct (decide (uid = _)) as [->|Hne]; [|split; [by apply Hweak|done]].
    split.
    + apply Forall_app. split; [by apply Hweak|].
      constructor; [|constructor]. simpl. split; [done|lia].
    + rewrite fmap_app. apply StronglySorted_snoc; [done|].
      rewrite Forall_fmap. eapply Forall_impl; [exact Hall|].
      simpl. intros fav [_ ?]. lia.
  - destruct (decide (uid = uid')) as [->|Hne]; [|split; [by apply Hweak|done]].
    split.
    + apply Hweak; [done|]. apply Forall_forall. intros fav Hin.
      apply list_elem_of_filter in Hin as [_ Hin].
      rewrite Forall_forall in Hall. by apply Hall.
    + by apply StronglySorted_fmap_filter.
Qed.

Lemma step_favorite_ids_unique s (c : call payload) :
  favorites_wf s → favorite_ids_unique s → favorite_ids_unique (step s c).
Proof.
  intros [_ Hwf] Huniq uid1 uid2 fav1 fav2.
  rewrite !getUserFavorites_step.
  destruct c as [key now|key data ts|now|userData hashed date
                 |favoriteData date|uid' g]; try apply Huniq.
  - assert (Hold : ∀ uid fav, fav ∈ getUserFavorites uid s →
              Favorite.id fav < favoriteId s).
    { intros uid fav Hin. destruct (Hwf uid) as [Hall _].
      rewrite Forall_forall in Hall. apply Hall in Hin. lia. }
    assert (Hcases : ∀ uid fav,
      fav ∈ (if decide (uid = InsertFavorite.userId favoriteData)
             then getUserFavorites uid s ++ [(addFavorite favoriteData date s).1]
             else getUserFavorites uid s) →
      fav ∈ getUserFavorites uid s ∨
      (uid = InsertFavorite.userId favoriteData ∧
       fav = (addFavorite favoriteData date s).1)).
    { intros uid fav. destruct (decide (uid = _)) as [->|Hne]; [|by left].
      rewrite elem_of_app, list_elem_of_singleton. intros [?|?]; auto. }
    intros H1 H2 Hid.
    apply Hcases in H1 as [H1|[-> ->]]; apply Hcases in H2 as [H2|[-> ->]].
    + by apply (Huniq uid1 uid2).
    + apply Hold in H1. simpl in Hid. lia.
    + apply Hold in H2. simpl in Hid. lia.
    + done.
  - assert (Hsub : ∀ uid fav,
      fav ∈ (if decide (uid = uid')
             then filter (λ fav, Favorite.gameId fav ≠ g)
                         (getUserFavorites uid' s)
             else getUserFavorites uid s) →
      fav ∈ getUserFavorites uid s).
    { intros uid fav. destruct (decide (uid = uid')) as [->|Hne]; [|done].
      rewrite list_elem_of_filter. tauto. }
    intros H1 H2. apply Huniq; by apply Hsub.
Qed.

(** X11.  In the store reached by any history of calls, every favourite
    that [getUserFavorites] returns for a user carries that user's id; its
    own id lies between 1 and the number of [addFavorite] calls; each list is
    in increasing id order (the order of addition); and no id occurs twice in
    the whole store. *)
Theorem favorites_are_filed h :
  let s := run (new_MemStorage (payload:=payload)) h in
  (∀ uid fav, fav ∈ getUserFavorites uid s →
     Favorite.userId fav = uid ∧
     1 ≤ Favorite.id fav ≤ Z.of_nat (additions h)) ∧
  (∀ uid, StronglySorted Z.lt (Favorite.id <$> getUserFavorites uid s)) ∧
  (∀ uid1 uid2 fav1 fav2,
     fav1 ∈ getUserFavorites uid1 s → fav2 ∈ getUserFavorites uid2 s →
     Favorite.id fav1 = Favorite.id fav2 → uid1 = uid2 ∧ fav1 = fav2).
Proof.
  assert (∀ s, favorites_wf s → favorite_ids_unique s →
               favorites_wf (run s h) ∧ favorite_ids_unique (run s h)) as Hrun.
  { induction h as [|c h IH]; intros s Hwf Hu; [done|].
    simpl. apply IH; [by apply step_favorites_wf|].
    by apply step_favorite_ids_unique. }
  intros s. destruct (Hrun new_MemStorage) as [[_ Hwf] Hu].
  { split; [done|]. intros uid. split; constructor. }
  { intros uid1 uid2 fav1 fav2 H. by apply elem_of_nil in H. }
  fold s in Hwf, Hu. split; [|split; [|done]].
  - intros uid fav Hin. destruct (Hwf uid) as [Hall _].
    rewrite Forall_forall in Hall. apply Hall in Hin as [? ?].
    split; [done|]. subst s. rewrite run_favoriteId in *. simpl in *. lia.
  - intros uid. apply Hwf.
Qed.

End MoreAccountProperties.

(** ** The cached handlers, continued *)

Section MoreHandlerProperties.
Context {payload : Type} (RAWG_API_KEY : jsstring).
Implicit Types (s : MemStorage payload) (r : cached_request).
Implicit Types (axios_get : upstream_call → reply payload).

(** Opens the handler that serves [r], as [by_handler] does. *)
Ltac open_handler r Hkey :=
  destruct r as [?query|?id|?query]; simpl in Hkey;
  [ injection Hkey as <-; unfold handle, games_handler
  | injection Hkey as <-; unfold handle, details_handler
  | unfold handle, search_handler;
    destruct (_ !! js "query") as [[[|? ?]| |]|]; try done;
    injection Hkey as <- ].

(** A miss whose upstream call resolves with [data]. *)
Lemma handle_filled r key axios_get t_lookup t_store s data :
  cacheKey_of r = Some key →
  (getGameCache key t_lookup s).1 = None →
  (∀ c, c ∈ fetched (handle RAWG_API_KEY r axios_get t_lookup t_store s) →
        axios_get c = Resolved data) →
  sent (handle RAWG_API_KEY r axios_get t_lookup t_store s) =
    mkResponse 200 (Data data) ∧
  store (handle RAWG_API_KEY r axios_get t_lookup t_store s) =
    (cacheGameData key data (t_store + lifetime r)
       (getGameCache key t_lookup s).2).2.
Proof.
  intros Hkey Hmiss.
  open_handler r Hkey;
    destruct (getGameCache _ _ _) as [c s1]; simpl in Hmiss; subst c;
    (destruct (axios_get _) as [d|] eqn:E; cbn [fetched sent store];
     [ intros H; specialize (H _ (list_elem_of_here _ _));
       assert (d = data) as -> by congruence; done
     | intros H; specialize (H _ (list_elem_of_here _ _)); congruence ]).
Qed.

(** X12.  A reply that was stored is served again without asking upstream:
    when a request misses and upstream resolves with [data], the handler
    answers 200 with [data]; every identical request whose lookup happens no
    later than the storing clock plus the handler's lifetime (3600, 86400 or
    1800 seconds) answers 200 with the same [data], makes no upstream call
    and leaves the store as it is. *)
Theorem stored_reply_is_served_again r key axios_get t_lookup t_store s data :
  let o := handle RAWG_API_KEY r axios_get t_lookup t_store s in
  cacheKey_of r = Some key →
  (getGameCache key t_lookup s).1 = None →
  (∀ c, c ∈ fetched o → axios_get c = Resolved data) →
  sent o = mkResponse 200 (Data data) ∧
  ∀ axios_get' t_lookup' t_store',
    t_lookup' ≤ t_store + lifetime r →
    handle RAWG_API_KEY r axios_get' t_lookup' t_store' (store o)
      = mkOutcome (mkResponse 200 (Data data)) [] (store o).
Proof.
  intros o Hkey Hmiss Hup.
  destruct (handle_filled r key axios_get t_lookup t_store s data Hkey Hmiss Hup)
    as [Hsent Hstore].
  fold o in Hsent, Hstore. split; [done|].
  intros axios_get' t_lookup' t_store' Hfresh.
  assert (Hlive : getGameCache key t_lookup' (store o) =
            (Some (GameCache.mk (currentId (getGameCache key t_lookup s).2)
                     key data (t_store + lifetime r)), store o)).
  { apply getGameCache_live; [|done].
    rewrite Hstore. simpl. apply lookup_insert_eq. }
  erewrite (handle_hit RAWG_API_KEY r key axios_get' t_lookup' t_store'
              (store o)); [|done|by rewrite Hlive].
  by rewrite Hlive.
Qed.

(** X13.  A stored reply is not served past its lifetime: under the same
    conditions, an identical request whose lookup happens later than the
    storing clock plus the lifetime makes the upstream call again, and if
    that call resolves, answers with the new data. *)
Theorem expired_reply_is_fetched_again r key axios_get t_lookup t_store s data :
  let o := handle RAWG_API_KEY r axios_get t_lookup t_store s in
  cacheKey_of r = Some key →
  (getGameCache key t_lookup s).1 = None →
  (∀ c, c ∈ fetched o → axios_get c = Resolved data) →
  ∀ axios_get' t_lookup' t_store',
    t_store + lifetime r < t_lookup' →
    let o' := handle RAWG_API_KEY r axios_get' t_lookup' t_store' (store o) in
    (∃ c, fetched o = [c] ∧ fetched o' = [c]) ∧
    (∀ data', (∀ c, c ∈ fetched o' → axios_get' c = Resolved data') →
       sent o' = mkResponse 200 (Data data') ∧
       ∃ item, gameCache (store o') !! key = Some item ∧
               GameCache.data item = data' ∧
               GameCache.timestamp item = t_store' + lifetime r).
Proof.
  intros o Hkey Hmiss Hup axios_get' t_lookup' t_store' Hlate o'.
  destruct (handle_filled r key axios_get t_lookup t_store s data Hkey Hmiss Hup)
    as [Hsent Hstore].
  fold o in Hsent, Hstore.
  assert (Hmiss' : (getGameCache key t_lookup' (store o)).1 = None).
  { erewrite getGameCache_expired; [done| |].
    - rewrite Hstore. simpl. apply lookup_insert_eq.
    - simpl. lia. }
  split.
  - destruct (handle_miss RAWG_API_KEY r key s t_lookup axios_get t_store
                Hkey Hmiss) as [c Hc].
    exists c. split; [done|]. subst o'.
    rewrite (handle_miss_call RAWG_API_KEY r key s (store o) t_lookup t_lookup'
               axios_get axios_get' t_store t_store'); done.
  - intros data' Hup'.
    destruct (handle_filled r key axios_get' t_lookup' t_store' (store o) data'
                Hkey Hmiss' Hup') as [Hsent' Hstore'].
    fold o' in Hsent', Hstore'. split; [done|].
    eexists. rewrite Hstore'. simpl. rewrite lookup_insert_eq. done.
Qed.

(** X14.  A cached handler touches the cache at its own key only: the
    entries under every other key, the users and the favourites are as
    before.  When the search handler rejects its query (no key), it answers
    400, calls nobody and leaves the whole store as it is. *)
Theorem handler_touches_only_its_key r axios_get t_lookup t_store s :
  let o := handle RAWG_API_KEY r axios_get t_lookup t_store s in
  users (store o) = users s ∧ favorites (store o) = favorites s ∧
  userId (store o) = userId s ∧ favoriteId (store o) = favoriteId s ∧
  match cacheKey_of r with
  | Some key => ∀ key', key' ≠ key → gameCache (store o) !! key' = gameCache s !! key'
  | None => status (sent o) = 400 ∧ fetched o = [] ∧ store o = s
  end.
Proof.
  intros o. subst o.
  assert (Hget : ∀ key,
    let g := getGameCache key t_lookup s in
    users g.2 = users s ∧ favorites g.2 = favorites s ∧
    userId g.2 = userId s ∧ favoriteId g.2 = favoriteId s ∧
    currentId g.2 = currentId s ∧
    ∀ key', key' ≠ key → gameCache g.2 !! key' = gameCache s !! key').
  { intros key g. subst g.
    destruct (getGameCache_store key t_lookup s) as [-> | ->];
      repeat split; try done.
    intros key' Hne. simpl. by apply lookup_delete_ne. }
  destruct r as [query|id|query]; unfold handle, cacheKey_of.
  - unfold games_handler. specialize (Hget (listing_cacheKey query)).
    destruct (getGameCache _ _ _) as [[c|] s1]; simpl in Hget;
      destruct Hget as (? & ? & ? & ? & ? & Hframe); [done|].
    destruct (axios_get _); simpl; repeat split; try done.
    intros key' Hne. rewrite lookup_insert_ne by done. by apply Hframe.
  - unfold details_handler. specialize (Hget (details_cacheKey id)).
    destruct (getGameCache _ _ _) as [[c|] s1]; simpl in Hget;
      destruct Hget as (? & ? & ? & ? & ? & Hframe); [done|].
    destruct (axios_get _); simpl; repeat split; try done.
    intros key' Hne. rewrite lookup_insert_ne by done. by apply Hframe.
  - unfold search_handler.
    destruct (query !! js "query") as [[[|c0 q']| |]|]; try done.
    specialize (Hget (search_cacheKey (c0 :: q'))).
    destruct (getGameCache _ _ _) as [[c|] s1]; simpl in Hget;
      destruct Hget as (? & ? & ? & ? & ? & Hframe); [done|].
    destruct (axios_get _); simpl; repeat split; try done.
    intros key' Hne. rewrite lookup_insert_ne by done. by apply Hframe.
Qed.

End MoreHandlerProperties.

(** X15.  The three handlers never share a cache key: a listing key is never
    a detail key or a search key, a detail key is never a search key, and
    detail and search keys determine the id and the query they were built
    from. *)
Theorem cache_keys_do_not_collide :
  (∀ query id, listing_cacheKey query ≠ details_cacheKey id) ∧
  (∀ query text, listing_cacheKey query ≠ search_cacheKey text) ∧
  (∀ id text, details_cacheKey id ≠ search_cacheKey text) ∧
  (∀ id1 id2, details_cacheKey id1 = details_cacheKey id2 → id1 = id2) ∧
  (∀ text1 text2, search_cacheKey text1 = search_cacheKey text2 → text1 = text2).
Proof.
  assert (Hlisting : ∀ query, ∃ t, listing_cacheKey query = 123%N :: t).
  { intros query. eexists. reflexivity. }
  assert (Hdetails : ∀ id, details_cacheKey id = 47%N :: 103%N :: js "ames/" ++ id).
  { intros id. reflexivity. }
  assert (Hsearch : ∀ text, search_cacheKey text = 47%N :: 115%N :: js "earch/" ++ text).
  { intros text. reflexivity. }
  split; [|split; [|split; [|split]]].
  - intros query id. destruct (Hlisting query) as [t ->]. by rewrite Hdetails.
  - intros query text. destruct (Hlisting query) as [t ->]. by rewrite Hsearch.
  - intros id text. by rewrite Hdetails, Hsearch.
  - intros id1 id2 H. by apply app_inv_head in H.
  - intros text1 text2 H. by apply app_inv_head in H.
Qed.

(** ** The account and favourites routes *)

Section RouteProperties.
Context {payload issues : Type}.
Context (safeParse : InsertUser.t → option issues).
Context (bcrypt_compare : jsstring → jsstring → bool).
Implicit Types (s : MemStorage payload) (session : option Z).
Implicit Types (sv : server payload) (req : request).

Lemma find_by_field {A} (f : User.t → A) `{!EqDecision A} (a : A)
    (l : list User.t) :
  List.find (λ user, bool_decide (f user = a)) l = None ↔ a ∉ f <$> l.
Proof.
  induction l as [|u l IH]; cbn [List.find].
  - split; [intros _; apply not_elem_of_nil | done].
  - rewrite fmap_cons, not_elem_of_cons. case_bool_decide as Hu.
    + split; [done|]. intros [? _]. congruence.
    + rewrite IH. split; [|tauto]. intros ?. split; [congruence|done].
Qed.

Lemma map_set_field {A} (f : User.t → A) (m : list (Z * User.t)) k u u' :
  map_get k m = Some u → f u' = f u →
  f <$> map_values (map_set k u' m) = f <$> map_values m.
Proof.
  unfold map_values. intros Hget Hf.
  induction m as [|[k0 u0] m IH]; [done|]. simpl in Hget |- *.
  destruct (decide (k = k0)) as [->|Hne].
  - injection Hget as ->. rewrite !fmap_cons. simpl. by rewrite Hf.
  - rewrite !fmap_cons. simpl. f_equal. by apply IH.
Qed.

Lemma write_user_field {A} (f : User.t → A) (m : list (Z * User.t)) k u games :
  map_get k m = Some u → User.id u = k →
  (∀ user l, f (User.set_favoriteGames l user) = f user) →
  f <$> map_values (write_user k (User.set_favoriteGames games u) m)
    = f <$> map_values m.
Proof.
  intros Hget Hid Hf. unfold write_user. simpl. rewrite Hid.
  rewrite (map_set_field f _ k (User.set_favoriteGames games u)); [|apply map_get_set_eq|done].
  by apply (map_set_field f _ k u).
Qed.

(** The calls that only rewrite [favoriteGames] keep every other field of
    every user, in place. *)
Lemma step_fields {A} (f : User.t → A) s (c : call payload) :
  users_wf s → is_CreateUser c = false →
  (∀ user l, f (User.set_favoriteGames l user) = f user) →
  f <$> map_values (users (step s c)) = f <$> map_values (users s).
Proof.
  intros Hwf Hc Hf.
  destruct c as [key now|key data ts|now|userData hashed date
                 |favoriteData date|uid g]; cbn [step]; try done.
  - destruct (getGameCache_store key now s) as [-> | ->]; done.
  - unfold addFavorite. cbn [snd users].
    destruct (map_get (InsertFavorite.userId favoriteData) (users s))
      as [user|] eqn:Hu; [|done].
    apply write_user_field; [done| |done]. by eapply users_wf_id.
  - unfold removeFavorite. destruct (favorites s !! uid); [|done].
    case_bool_decide; [done|]. cbn [set_favorites users].
    destruct (map_get uid (users s)) as [user|] eqn:Hu; [|done].
    cbn [snd set_users users].
    apply write_user_field; [done| |done]. by eapply users_wf_id.
Qed.


Lemma run_handler_effect req session s :
  effect session s (run_handler safeParse bcrypt_compare req session s).
Proof.
  destruct req as [sid email username password hashed date|sid email password
                   |sid failed|sid|sid g name image date|sid g|sid];
    cbn [run_handler].
  - unfold register. destruct (safeParse _); [constructor|].
    destruct (getUserByEmail email s) eqn:He; [constructor|].
    destruct (getUserByUsername username s) eqn:Hu; [constructor|].
    by apply (UserCreated session s _ (InsertUser.mk email username password None)).
  - unfold login. destruct (getUserByEmail email s) as [user|] eqn:He;
      [|constructor].
    destruct (validatePassword _ _ _); [|constructor].
    apply SessionOpened. apply find_some in He as [Hin _].
    by apply list_elem_of_In.
  - unfold logout. destruct failed; constructor.
  - unfold auth_user, not_authenticated. destruct session as [uid|]; [|constructor].
    destruct (isAuthenticated _); [|constructor].
    destruct (getUserById uid s); constructor.
  - unfold favorites_add, not_authenticated.
    destruct session as [uid|]; [|constructor].
    destruct (isAuthenticated _); [|constructor].
    by apply (FavoriteAdded (Some uid) s _ (InsertFavorite.mk uid g name image)).
  - unfold favorites_remove, not_authenticated.
    destruct session as [uid|]; [|constructor].
    destruct (isAuthenticated _); [|constructor].
    destruct g as [g|]; [|constructor].
    destruct (removeFavorite uid g s) as [success s'] eqn:E.
    replace s' with (removeFavorite uid g s).2 by (by rewrite E).
    destruct success; constructor.
  - unfold favorites_list, not_authenticated.
    destruct session as [uid|]; [|constructor].
    destruct (isAuthenticated _); constructor.
Qed.

Lemma lookup_save_session sid session (m : gmap N Z) sid' :
  save_session sid session m !! sid' =
    if decide (sid' = sid) then session else m !! sid'.
Proof.
  unfold save_session. destruct session as [uid|], (decide (sid' = sid)) as [->|Hne].
  - apply lookup_insert_eq.
  - by apply lookup_insert_ne.
  - apply lookup_delete_eq.
  - by apply lookup_delete_ne.
Qed.

Lemma save_session_same sid (m : gmap N Z) : save_session sid (m !! sid) m = m.
Proof.
  apply map_eq. intros sid'. rewrite lookup_save_session.
  by destruct (decide (sid' = sid)) as [->|].
Qed.

(** Users are never removed. *)
Lemma step_keeps_users s (c : call payload) uid :
  users_wf s → is_Some (getUserById uid s) →
  is_Some (getUserById uid (step s c)).
Proof.
  intros Hwf [user Hu].
  destruct (step_user_identity s c uid user Hwf Hu) as [games ->]. by eexists.
Qed.

Lemma step_identities_unique s (c : call payload) :
  users_wf s → identities_unique s →
  match c with
  | CreateUser userData _ _ =>
      getUserByEmail (InsertUser.email userData) s = None ∧
      getUserByUsername (InsertUser.username userData) s = None
  | _ => True
  end →
  identities_unique (step s c).
Proof.
  intros Hwf [Hemail Hname] Hc. unfold identities_unique.
  destruct (is_CreateUser c) eqn:Hkind.
  - destruct c as [| | |userData hashed date| |]; try done.
    destruct Hc as [He Hu]. cbn [step].
    rewrite createUser_users by done.
    unfold map_values. rewrite !fmap_app. simpl. split.
    + apply NoDup_app. split; [done|]. split; [|apply NoDup_singleton].
      intros x Hx ->%list_elem_of_singleton.
      by apply (find_by_field User.email) in He.
    + apply NoDup_app. split; [done|]. split; [|apply NoDup_singleton].
      intros x Hx ->%list_elem_of_singleton.
      by apply (find_by_field User.username) in Hu.
  - rewrite !step_fields by done. done.
Qed.

Lemma effect_server_ok sv sid (res : result payload issues) :
  server_ok sv → effect (sessions sv !! sid) (db sv) res →
  server_ok (mkServer (store_after res)
               (save_session sid (session_after res) (sessions sv))).
Proof.
  intros (Hwf & Hno & Hmir & Huniq & Hsess) Heff.
  assert (Hstep : ∀ session' c,
    adds_known (db sv) [c] →
    match c with
    | CreateUser userData _ _ =>
        getUserByEmail (InsertUser.email userData) (db sv) = None ∧
        getUserByUsername (InsertUser.username userData) (db sv) = None
    | _ => True
    end →
    (∀ uid, session' = Some uid →
       sessions sv !! sid = Some uid ∨ is_Some (getUserById uid (step (db sv) c))) →
    server_ok (mkServer (step (db sv) c)
                 (save_session sid session' (sessions sv)))).
  { intros session' c Hknown Hc Hnew.
    destruct (step_account_invariants (db sv) c) as [Hno' Hmir']; try done.
    split; [by apply step_users_wf|]. split; [done|]. split; [done|].
    split; [by apply step_identities_unique|].
    intros sid' uid. cbn [sessions db]. rewrite lookup_save_session.
    destruct (decide (sid' = sid)) as [->|Hne].
    - intros Hs. destruct (Hnew uid Hs) as [Hold|?]; [|done].
      apply step_keeps_users; [done|]. by apply (Hsess sid).
    - intros Hs. apply step_keeps_users; [done|]. by apply (Hsess sid'). }
  assert (Hsame : ∀ session',
    (∀ uid, session' = Some uid → is_Some (getUserById uid (db sv))) →
    server_ok (mkServer (db sv) (save_session sid session' (sessions sv)))).
  { intros session' Hnew. repeat (split; [done|]).
    intros sid' uid. cbn [sessions db]. rewrite lookup_save_session.
    destruct (decide (sid' = sid)) as [->|Hne]; [by apply Hnew|].
    apply Hsess. }
  destruct Heff as [a|a|a user Hin|a userData hashed date He Hu
                    |a favoriteData date Hs|a uid g]; cbn [store_after session_after].
  - apply Hsame. intros uid Hs. by apply (Hsess sid).
  - by apply Hsame.
  - apply Hsame. intros uid [= <-]. rewrite getUserById_value by done. by eexists.
  - apply (Hstep _ (CreateUser userData hashed date)); [done|done|].
    intros uid [= <-]. right. cbn [step]. rewrite getUserById_createUser.
    rewrite decide_True by done. by eexists.
  - apply (Hstep _ (AddFavorite favoriteData date)); [|done|by left].
    split; [|done]. apply (Hsess sid). by rewrite Hs.
  - apply (Hstep _ (RemoveFavorite uid g)); [done|done|by left].
Qed.

Lemma serve_request_ok sv req :
  server_ok sv → server_ok (serve_request safeParse bcrypt_compare sv req).2.
Proof.
  intros Hok. unfold serve_request. cbn [snd].
  apply effect_server_ok; [done|]. apply run_handler_effect.
Qed.

Lemma new_server_ok : server_ok (new_server (payload:=payload)).
Proof.
  split; [apply new_users_wf|]. split; [|split; [|split; [split; constructor|]]].
  - intros uid [l Hl]. simpl in Hl. by rewrite lookup_empty in Hl.
  - by intros uid u Hu.
  - intros sid uid H. simpl in H. by rewrite lookup_empty in H.
Qed.

Lemma serve_all_ok sv reqs :
  server_ok sv → server_ok (serve_all safeParse bcrypt_compare sv reqs).
Proof.
  revert sv. induction reqs as [|req reqs IH]; intros sv Hok; [done|].
  simpl. apply IH. by apply serve_request_ok.
Qed.


Lemma effect_is_step session s (res : result payload issues) :
  effect session s res → ∃ h, store_after res = run s h.
Proof.
  intros [a|a|a user Hin|a userData hashed date He Hu
          |a favoriteData date Hs|a uid g]; cbn [store_after].
  - by exists [].
  - by exists [].
  - by exists [].
  - by exists [CreateUser userData hashed date].
  - by exists [AddFavorite favoriteData date].
  - by exists [RemoveFavorite uid g].
Qed.

(** The store of a server is the store some history of store calls
    reaches. *)
Lemma serve_all_run sv reqs :
  ∃ h, db (serve_all safeParse bcrypt_compare sv reqs) = run (db sv) h.
Proof.
  revert sv. induction reqs as [|req reqs IH]; intros sv; [by exists []|].
  change (serve_all safeParse bcrypt_compare sv (req :: reqs)) with
    (serve_all safeParse bcrypt_compare
       (serve_request safeParse bcrypt_compare sv req).2 reqs).
  destruct (IH (serve_request safeParse bcrypt_compare sv req).2)
    as [h Hh].
  destruct (effect_is_step _ _ _
              (run_handler_effect req (sessions sv !! session_id req) (db sv)))
    as [h0 Hh0].
  exists (h0 ++ h). rewrite Hh. unfold serve_request. cbn [snd db].
  rewrite Hh0. unfold run. by rewrite foldl_app.
Qed.

Lemma serve_all_keeps_user sv reqs uid user :
  server_ok sv → getUserById uid (db sv) = Some user →
  ∃ games,
    getUserById uid (db (serve_all safeParse bcrypt_compare sv reqs))
      = Some (User.set_favoriteGames games user).
Proof.
  intros (Hwf & _) Hu. destruct (serve_all_run sv reqs) as [h ->].
  clear -Hwf Hu. revert user Hu. generalize (db sv) as s, Hwf. clear sv Hwf.
  induction h as [|c h IH]; intros s Hwf user Hu.
  - exists (User.favoriteGames user). simpl. rewrite Hu. by destruct user.
  - simpl. destruct (step_user_identity s c uid user Hwf Hu) as [games Hstep].
    destruct (IH _ (step_users_wf _ c Hwf) _ Hstep) as [games' Hrun].
    exists games'. by rewrite Hrun.
Qed.


Lemma getUserById_elem s uid user :
  getUserById uid s = Some user → user ∈ map_values (users s).
Proof.
  intros Hu. apply map_get_Some in Hu. apply list_elem_of_fmap.
  by exists (uid, user).
Qed.

(** X16.  Through the routes the store keeps its integrity, whatever the
    requests: every session that holds a user id holds the id of a stored
    user, every user that has favourites is stored, and the [favoriteGames]
    of every stored user lists the game ids of its favourites in order. *)
Theorem requests_keep_integrity reqs :
  let sv := serve_all safeParse bcrypt_compare
              (new_server (payload:=payload)) reqs in
  (∀ sid uid, sessions sv !! sid = Some uid →
     is_Some (getUserById uid (db sv))) ∧
  (∀ uid, getUserFavorites uid (db sv) ≠ [] →
     is_Some (getUserById uid (db sv))) ∧
  (∀ user, user ∈ map_values (users (db sv)) →
     User.favoriteGames user =
       Favorite.gameId <$> getUserFavorites (User.id user) (db sv)).
Proof.
  intros sv.
  destruct (serve_all_ok new_server reqs new_server_ok)
    as (Hwf & Hno & Hmir & _ & Hsess).
  fold sv in Hwf, Hno, Hmir, Hsess. split; [done|]. split.
  - intros uid Hfav. apply Hno. unfold getUserFavorites in Hfav.
    destruct (favorites (db sv) !! uid); [by eexists|done].
  - intros user Hin. apply Hmir. by apply getUserById_value.
Qed.


(** What a successful registration leaves behind. *)
Lemma register_created sv sid email username password hashed date :
  server_ok sv →
  code (serve_request safeParse bcrypt_compare sv
          (PostRegister sid email username password hashed date)).1 = 201 →
  let sv1 := (serve_request safeParse bcrypt_compare sv
                (PostRegister sid email username password hashed date)).2 in
  let user := User.mk (userId (db sv)) email username hashed date None [] in
  getUserById (userId (db sv)) (db sv1) = Some user ∧
  sessions sv1 !! sid = Some (userId (db sv)) ∧
  (serve_request safeParse bcrypt_compare sv
     (PostRegister sid email username password hashed date)).1
    = mkAnswer 201
        (MessageAndUser (js "Registrazione completata con successo")
                        (without_password user)).
Proof.
  intros Hok. unfold serve_request. cbn [fst snd run_handler session_id].
  unfold register. destruct (safeParse _); [done|].
  destruct (getUserByEmail email (db sv)); [done|].
  destruct (getUserByUsername username (db sv)); [done|].
  intros _. cbn [answered store_after session_after db sessions createUser].
  split; [|split; [|done]].
  - unfold getUserById. cbn [users]. apply map_get_set_eq.
  - by rewrite lookup_save_session, decide_True.
Qed.


(** X19.  An identity is registered once: after a registration answered
    with 201, and whatever requests follow, every registration with the same
    e-mail or the same user name is answered with 400 and changes neither the
    store nor any session. *)
Theorem duplicate_registration_is_refused
    reqs sid email username password hashed date reqs'
    sid' email' username' password' hashed' date' :
  let sv := serve_all safeParse bcrypt_compare
              (new_server (payload:=payload)) reqs in
  let registration :=
    serve_request safeParse bcrypt_compare sv
      (PostRegister sid email username password hashed date) in
  let sv' := serve_all safeParse bcrypt_compare registration.2 reqs' in
  let again :=
    serve_request safeParse bcrypt_compare sv'
      (PostRegister sid' email' username' password' hashed' date') in
  code registration.1 = 201 →
  email' = email ∨ username' = username →
  code again.1 = 400 ∧ again.2 = sv'.
Proof.
  intros sv registration sv' again Hcode Hsame.
  pose proof (serve_all_ok new_server reqs new_server_ok) as Hok. fold sv in Hok.
  destruct (register_created sv sid email username password hashed date Hok Hcode)
    as (Hstored & _ & _).
  pose proof (serve_request_ok sv
                (PostRegister sid email username password hashed date) Hok)
    as Hok1. fold registration in Hok1, Hstored.
  destruct (serve_all_keeps_user registration.2 reqs' _ _ Hok1 Hstored)
    as [games Hlater]. fold sv' in Hlater.
  apply getUserById_elem in Hlater.
  assert (Hrefused : ∀ a : answer issues,
            code a = 400 →
            code a = 400 ∧
            mkServer (db sv') (save_session sid' (sessions sv' !! sid')
                                 (sessions sv')) = sv').
  { intros a Ha. split; [done|]. rewrite save_session_same. by destruct sv'. }
  subst again. unfold serve_request.
  cbn [fst snd run_handler session_id]. unfold register.
  destruct (safeParse _);
    [cbn [answered store_after session_after]; apply Hrefused; reflexivity|].
  destruct (getUserByEmail email' (db sv')) eqn:He;
    [cbn [answered store_after session_after]; apply Hrefused; reflexivity|].
  destruct (getUserByUsername username' (db sv')) eqn:Hu;
    [cbn [answered store_after session_after]; apply Hrefused; reflexivity|].
  exfalso. destruct Hsame as [-> | ->].
  - apply (find_by_field User.email) in He. destruct He.
    apply list_elem_of_fmap. eexists. split; [|exact Hlater]. reflexivity.
  - apply (find_by_field User.username) in Hu. destruct Hu.
    apply list_elem_of_fmap. eexists. split; [|exact Hlater]. reflexivity.
Qed.

(** X20.  A protected route does nothing without an authenticated session:
    when the session of the request holds no user id (or the id 0), the
    profile route and the three favourites routes answer 401 with the same
    message and leave the store and every session as they are. *)
Theorem protected_routes_require_session sv req :
  is_protected req = true →
  isAuthenticated (sessions sv !! session_id req) = false →
  serve_request safeParse bcrypt_compare sv req =
    (mkAnswer 401
       (OnlyMessage
          (js "Non sei autenticato. Effettua il login per continuare.")),
     sv).
Proof.
  intros Hreq Hauth. unfold serve_request.
  assert (run_handler safeParse bcrypt_compare req
            (sessions sv !! session_id req) (db sv)
          = not_authenticated (sessions sv !! session_id req) (db sv)) as ->.
  { destruct req; try done; cbn [run_handler session_id] in *;
      unfold auth_user, favorites_add, favorites_remove, favorites_list;
      destruct (sessions sv !! sid) as [uid|]; try done; by rewrite Hauth. }
  unfold not_authenticated. cbn [answered session_after store_after].
  rewrite save_session_same. by destruct sv.
Qed.

(** X21.  For an authenticated session, the removal route answers 200
    exactly when the user has a favourite with the game id of the path, and
    404 otherwise (also when the path segment is not a number); on 404 the
    store is unchanged, and after any answer the user has no favourite with
    that game id.  The session is left as it is. *)
Theorem favorites_remove_outcome gameId uid s :
  uid ≠ 0 →
  let res := favorites_remove (issues:=issues) gameId (Some uid) s in
  (code (answered res) = 200 ↔
     ∃ g fav, gameId = Some g ∧ fav ∈ getUserFavorites uid s ∧
              Favorite.gameId fav = g) ∧
  (code (answered res) = 200 ∨ code (answered res) = 404) ∧
  (code (answered res) = 404 → store_after res = s) ∧
  session_after res = Some uid ∧
  (∀ g fav, gameId = Some g → fav ∈ getUserFavorites uid (store_after res) →
            Favorite.gameId fav ≠ g).
Proof.
  intros Huid res. subst res. unfold favorites_remove.
  assert (isAuthenticated (Some uid) = true) as ->.
  { simpl. by apply negb_true_iff, Z.eqb_neq. }
  destruct gameId as [g|].
  - pose proof (removeFavorite_result s uid g) as Hres.
    pose proof (removeFavorite_noop s uid g) as Hnoop.
    pose proof (getUserFavorites_removeFavorite s uid g uid) as Hleft.
    rewrite decide_True in Hleft by done.
    destruct (removeFavorite uid g s) as [success s'].
    cbn [fst snd] in *.
    assert (Hgone : ∀ g' fav, Some g = Some g' →
              fav ∈ getUserFavorites uid s' → Favorite.gameId fav ≠ g').
    { intros g' fav [= <-]. rewrite Hleft, list_elem_of_filter. tauto. }
    destruct success; cbn [answered code store_after session_after].
    + split; [|split; [by left|split; [done|split; [done|done]]]].
      split; [|done]. intros _.
      destruct (decide (Forall (λ fav, Favorite.gameId fav ≠ g)
                               (getUserFavorites uid s))) as [Hall|Hsome].
      * assert (true = false); [|done]. apply Hres.
        by apply Forall_forall.
      * apply not_Forall_Exists in Hsome; [|apply _].
        apply Exists_exists in Hsome as (fav & Hin & Hg).
        exists g, fav. split; [done|]. split; [done|].
        simpl in Hg. by destruct (decide (Favorite.gameId fav = g)).
    + split; [|split; [by right|split; [by intros; apply Hnoop|split; [done|done]]]].
      split; [done|]. intros (g' & fav & [= <-] & Hin & Hg).
      destruct Hres as [Hres _]. exfalso. by apply (Hres eq_refl fav).
  - cbn [answered code store_after session_after].
    split; [|split; [by right|split; [done|split; [done|done]]]].
    split; [done|]. by intros (g' & fav & ? & _).
Qed.

Lemma reachable_ids_positive reqs uid :
  is_Some (getUserById uid
             (db (serve_all safeParse bcrypt_compare
                    (new_server (payload:=payload)) reqs))) →
  1 ≤ uid.
Proof.
  destruct (serve_all_run new_server reqs) as [h ->]. cbn [db new_server].
  intros [user Hu]. apply map_get_Some in Hu.
  assert (uid ∈ (users (run (new_MemStorage (payload:=payload)) h)).*1) as Hin.
  { apply list_elem_of_fmap. by exists (uid, user). }
  rewrite run_keys in Hin; [|apply new_users_wf|done|done].
  apply elem_of_seqZ in Hin. lia.
Qed.

(** X22.  The profile route always finds its user: whatever the requests,
    a session that holds a user id holds one that is not 0 and that
    [getUserById] finds, so [GET /api/auth/user] answers 200 with that user
    (without the password hash); the 404 branch is never taken.  A session
    without a user id gets 401.  Neither changes anything. *)
Theorem profile_is_always_found reqs sid :
  let sv := serve_all safeParse bcrypt_compare
              (new_server (payload:=payload)) reqs in
  match sessions sv !! sid with
  | Some uid =>
      uid ≠ 0 ∧
      ∃ user, getUserById uid (db sv) = Some user ∧
              serve_request safeParse bcrypt_compare sv (GetAuthUser sid)
                = (mkAnswer 200 (TheUser (without_password user)), sv)
  | None =>
      serve_request safeParse bcrypt_compare sv (GetAuthUser sid)
        = (mkAnswer 401
             (OnlyMessage
                (js "Non sei autenticato. Effettua il login per continuare.")),
           sv)
  end.
Proof.
  intros sv.
  destruct (serve_all_ok new_server reqs new_server_ok)
    as (_ & _ & _ & _ & Hsess).
  fold sv in Hsess.
  destruct (sessions sv !! sid) as [uid|] eqn:Hs.
  - pose proof (Hsess sid uid Hs) as Hsome.
    pose proof (reachable_ids_positive reqs uid Hsome) as Hpos.
    destruct Hsome as [user Hu]. fold sv in Hu.
    split; [lia|]. exists user. split; [done|].
    unfold serve_request. cbn [run_handler session_id]. rewrite Hs.
    unfold auth_user.
    assert (isAuthenticated (Some uid) = true) as ->.
    { simpl. apply negb_true_iff, Z.eqb_neq. lia. }
    rewrite Hu. cbn [answered session_after store_after].
    rewrite <- Hs, save_session_same. by destruct sv.
  - unfold serve_request. cbn [run_handler session_id]. rewrite Hs.
    cbn [auth_user not_authenticated answered session_after store_after].
    rewrite <- Hs, save_session_same. by destruct sv.
Qed.

End RouteProperties.

(** ** Concrete runs, continued *)

(** X2 for the entry that expires at second 100, swept at second 100 and
    read at second 120. *)
Lemma clearExpiredCache_invisible_witness :
  100 ≤ 120 ∧
  (getGameCache (js "k") 120 (clearExpiredCache 100 cached_until_100)).1
    = (getGameCache (js "k") 120 cached_until_100).1 ∧
  gameCache (getGameCache (js "k") 120
               (clearExpiredCache 100 cached_until_100)).2
    = gameCache (clearExpiredCache 100
                   (getGameCache (js "k") 120 cached_until_100).2).
Proof.
  assert (H : 100 ≤ 120) by discriminate.
  split; [done|].
  exact (clearExpiredCache_invisible 100 120 (js "k") cached_until_100 H).
Defined.

(** X7 for the stored user 1 along [sample_history]. *)
Lemma stored_user_is_stable_witness :
  (users_wf with_alice ∧ getUserById 1 with_alice = Some alice_stored) ∧
  ∃ games,
    getUserById 1 (run with_alice sample_history)
      = Some (User.set_favoriteGames games alice_stored).
Proof.
  assert (Hwf : users_wf with_alice).
  { apply (step_users_wf new_MemStorage
             (CreateUser alice (js "$2b$10$hash") 0)), new_users_wf. }
  assert (Hu : getUserById 1 with_alice = Some alice_stored) by reflexivity.
  split; [done|].
  exact (stored_user_is_stable sample_history with_alice 1 alice_stored Hwf Hu).
Defined.


(** X12 and X13 for the detail request of game 42 on the empty store, with
    upstream answering 7 at second 1000. *)
Lemma stored_reply_is_served_again_witness :
  let r := DetailsRequest (js "42") in
  let key := details_cacheKey (js "42") in
  let o := handle (js "key") r upstream_up 1000 1000 empty_store in
  (cacheKey_of r = Some key ∧
   (getGameCache key 1000 empty_store).1 = None ∧
   (∀ c, c ∈ fetched o → upstream_up c = Resolved 7)) ∧
  sent o = mkResponse 200 (Data 7) ∧
  ∀ axios_get' t_lookup' t_store',
    t_lookup' ≤ 1000 + lifetime r →
    handle (js "key") r axios_get' t_lookup' t_store' (store o)
      = mkOutcome (mkResponse 200 (Data 7)) [] (store o).
Proof.
  intros r key o.
  assert (Hmiss : (getGameCache key 1000 empty_store).1 = None)
    by reflexivity.
  assert (Hup : ∀ c, c ∈ fetched o → upstream_up c = Resolved 7) by done.
  split; [done|].
  exact (stored_reply_is_served_again (js "key") r key upstream_up 1000 1000
           empty_store 7 eq_refl Hmiss Hup).
Defined.

Lemma expired_reply_is_fetched_again_witness :
  let r := DetailsRequest (js "42") in
  let key := details_cacheKey (js "42") in
  let o := handle (js "key") r upstream_up 1000 1000 empty_store in
  let o' := handle (js "key") r upstream_up 90000 90001 (store o) in
  (cacheKey_of r = Some key ∧
   (getGameCache key 1000 empty_store).1 = None ∧
   (∀ c, c ∈ fetched o → upstream_up c = Resolved 7) ∧
   1000 + lifetime r < 90000) ∧
  (∃ c, fetched o = [c] ∧ fetched o' = [c]) ∧
  (∀ data', (∀ c, c ∈ fetched o' → upstream_up c = Resolved data') →
     sent o' = mkResponse 200 (Data data') ∧
     ∃ item, gameCache (store o') !! key = Some item ∧
             GameCache.data item = data' ∧
             GameCache.timestamp item = 90001 + lifetime r).
Proof.
  intros r key o o'.
  assert (Hmiss : (getGameCache key 1000 empty_store).1 = None)
    by reflexivity.
  assert (Hup : ∀ c, c ∈ fetched o → upstream_up c = Resolved 7) by done.
  assert (Hlate : 1000 + lifetime r < 90000) by reflexivity.
  split; [done|].
  exact (expired_reply_is_fetched_again (js "key") r key upstream_up 1000 1000
           empty_store 7 eq_refl Hmiss Hup upstream_up 90000 90001 Hlate).
Defined.


Lemma duplicate_registration_is_refused_witness :
  let registration :=
    serve_request sample_safeParse sample_compare server_with_bob
      alice_registers in
  let sv' := serve_all sample_safeParse sample_compare registration.2
               alice_continues in
  let again :=
    serve_request sample_safeParse sample_compare sv'
      (PostRegister 4 (js "alice@example.org") (js "alice2") (js "other")
                    (sample_hash (js "other")) 30) in
  (code registration.1 = 201 ∧
   (js "alice@example.org" = js "alice@example.org" ∨
    js "alice2" = js "alice")) ∧
  code again.1 = 400 ∧ again.2 = sv'.
Proof.
  intros registration sv' again.
  assert (Hcode : code registration.1 = 201) by reflexivity.
  assert (Hsame : js "alice@example.org" = js "alice@example.org" ∨
                  js "alice2" = js "alice") by (by left).
  split; [done|].
  exact (duplicate_registration_is_refused sample_safeParse sample_compare
           [ PostRegister 1 (js "bob@example.org") (js "bob") (js "hunter2")
                          (sample_hash (js "hunter2")) 5 ]
           2%N (js "alice@example.org") (js "alice") (js "secret")
           (sample_hash (js "secret")) 10 alice_continues
           4%N (js "alice@example.org") (js "alice2") (js "other")
           (sample_hash (js "other")) 30 Hcode Hsame).
Defined.

(** X20 for the favourites list asked in a session that never logged in. *)
Lemma protected_routes_require_session_witness :
  (is_protected (GetFavorites 9) = true ∧
   isAuthenticated (sessions server_with_bob !! session_id (GetFavorites 9))
     = false) ∧
  serve_request sample_safeParse sample_compare server_with_bob (GetFavorites 9)
    = (mkAnswer 401
         (OnlyMessage
            (js "Non sei autenticato. Effettua il login per continuare.")),
       server_with_bob).
Proof.
  assert (H1 : is_protected (GetFavorites 9) = true) by reflexivity.
  assert (H2 : isAuthenticated
                 (sessions server_with_bob !! session_id (GetFavorites 9))
               = false) by reflexivity.
  split; [done|].
  exact (protected_routes_require_session sample_safeParse sample_compare
           server_with_bob (GetFavorites 9) H1 H2).
Defined.

(** X21 for user 1, who has two favourites for game 7. *)
Lemma favorites_remove_outcome_witness :
  let res := favorites_remove (issues:=unit) (Some 7) (Some 1) with_duplicates in
  1 ≠ 0 ∧
  (code (answered res) = 200 ↔
     ∃ g fav, Some 7 = Some g ∧ fav ∈ getUserFavorites 1 with_duplicates ∧
              Favorite.gameId fav = g) ∧
  (code (answered res) = 200 ∨ code (answered res) = 404) ∧
  (code (answered res) = 404 → store_after res = with_duplicates) ∧
  session_after res = Some 1 ∧
  (∀ g fav, Some 7 = Some g → fav ∈ getUserFavorites 1 (store_after res) →
            Favorite.gameId fav ≠ g).
Proof.
  intros res. assert (H : 1 ≠ 0) by discriminate.
  split; [done|].
  exact (favorites_remove_outcome (issues:=unit) (Some 7) 1 with_duplicates H).
Defined.
